(** * metalift: Python front end and concrete execution

    A shallow embedding of

    - [frontend/python.py]: the [Translator] that lowers a Python syntax
      tree to metalift IR, and
    - [metalift/concrete.py]: the argument sampler, the trace generator
      and the native bridge,

    followed by the properties proved about them. *)

From Stdlib Require Import ZArith String List Lia.
From stdpp Require Import base option list strings gmap.

Set Warnings "-register-all".
Local Open Scope string_scope.
Local Open Scope list_scope.

(** ** Python outcomes

    A Python call either returns a value or raises.  The exception
    classes are the ones the two files raise or trigger.  A message is
    the format string of the source; the payload is filled in only for
    [NameError], where it is the identifier. *)

Inductive exn :=
  | TypeError (msg : string)
  | NameError (msg : string)
  | KeyError
  | IndexError
  | AttributeError
  | AssertionError
  | NotImplementedError (msg : string)
  | OtherError (msg : string).

(** [Unmodelled] is not a Python outcome.  The [Translator] only defines
    handlers for some node classes; every other class is dispatched by
    [ast.NodeTransformer.visit] to the library's [generic_visit], whose
    effect on the values the handlers return depends on the [ir] classes,
    which are not part of the sources.  A computation that reaches such a
    node has outcome [Unmodelled]: nothing is stated about it. *)
Inductive outcome (A : Type) :=
  | Ok (a : A)
  | Raise (e : exn)
  | Unmodelled.
Arguments Ok {A} a.
Arguments Raise {A} e.
Arguments Unmodelled {A}.

#[global] Instance outcome_ret : MRet outcome := fun A a => Ok a.
#[global] Instance outcome_bind : MBind outcome := fun A B f m =>
  match m with
  | Ok a => f a
  | Raise e => Raise e
  | Unmodelled => Unmodelled
  end.

(** A list comprehension [[f(x) for x in xs]]: left to right, the first
    exception ends it. *)
Definition mapM {A B : Type} (f : A -> outcome B) : list A -> outcome (list B) :=
  fix go (xs : list A) : outcome (list B) :=
    match xs with
    | [] => Ok []
    | x :: xs' => y ← f x; ys ← go xs'; Ok (y :: ys)
    end.

Definition raises {A : Type} (r : outcome A) : Prop := exists e, r = Raise e.

(** ** The [operator] module: the tags stored in [ir.BinaryOp] and
    [ir.UnaryOp]. *)
Module operator.
Inductive fn :=
  | add | sub | mul | floordiv
  | eq | lt | gt | le | ge | ne
  | not_.

#[global] Instance fn_eq_dec : EqDecision fn.
Proof. solve_decision. Defined.
End operator.

(** ** The syntax tree ([ast]) *)
Module ast.
Inductive operator :=
  | Add | Sub | Mult | MatMult | Div | Mod | Pow
  | LShift | RShift | BitOr | BitXor | BitAnd | FloorDiv.

Inductive unaryop := Invert | Not | UAdd | USub.

Inductive cmpop := Eq | NotEq | Lt | LtE | Gt | GtE | Is | IsNot | In | NotIn.

(** The value of an [ast.Constant]. *)
Inductive constant :=
  | CBool (b : bool)
  | CInt (z : Z)
  | CNone
  | CStr (s : string)
  | CBytes (s : string)
  | CFloat (repr : string)
  | CComplex (repr : string)
  | CEllipsis.

(** Expressions.  [Num] and [Str] are [Constant]s (Python 3.8 on);
    [Index] wraps a subscript's slice up to Python 3.8.  [OtherExpr]
    stands for every expression class the translator names nowhere
    ([BoolOp], [Lambda], [IfExp], [Dict], ...); the fields the
    translator never reads ([ctx], [keywords]) are left out. *)
Inductive expr :=
  | Name (id : string)
  | Attribute (value : expr) (attr : string)
  | BinOp (left : expr) (op : operator) (right : expr)
  | UnaryOp (op : unaryop) (operand : expr)
  | Compare (left : expr) (ops : list cmpop) (comparators : list expr)
  | Call (func : expr) (args : list expr)
  | Constant (value : constant)
  | Index (value : expr)
  | Starred (value : expr)
  | Subscript (value : expr) (slice : expr)
  | List_ (elts : list expr)
  | Tuple (elts : list expr)
  | OtherExpr (cls : string).

Record alias := { alias_name : string; asname : option string }.

(** One positional parameter [arg: annotation]. *)
Record arg := { arg_name : string; annotation : option expr }.

(** [ast.arguments]: only [args] is read. *)
Record arguments := { args : list arg }.

Inductive stmt :=
  | FunctionDef (name : string) (a : arguments) (body : list stmt)
                (returns : option expr)
  | Return (value : option expr)
  | Assign (targets : list expr) (value : expr)
  | AnnAssign (target : expr) (ann : expr) (value : option expr)
  | While (test : expr) (body orelse : list stmt)
  | If (test : expr) (body orelse : list stmt)
  | Import_ (names : list alias)
  | Expr (value : expr)
  | Break
  | Continue
  | OtherStmt (cls : string).

Record Module_ := { body : list stmt }.

Definition is_Name (e : expr) : bool :=
  match e with Name _ => true | _ => false end.

(** [isinstance(e, ast.Num)]: a constant that is an int, float or
    complex and not a bool. *)
Definition is_Num (e : expr) : bool :=
  match e with
  | Constant (CInt _) | Constant (CFloat _) | Constant (CComplex _) => true
  | _ => false
  end.

(** [isinstance(e, ast.Str)]. *)
Definition is_Str (e : expr) : bool :=
  match e with Constant (CStr _) => true | _ => false end.
End ast.

(** ** The IR ([ir]) *)
Module ir.
Section nodes.
(** [T]: the Python objects an annotation evaluates to. *)
Context {T : Type}.

(** Modelled from the spec: the class [ir.Var] is not part of the
    sources; a symbol is a name and a type. *)
Record Var := mkVar { name : string; type : T }.

(** The Python classes [bool] and [int] as the second field of
    [ir.Lit]; [None] is the third value that field takes. *)
Inductive pytype := py_bool | py_int.

Inductive branch_type := BreakT | ContinueT.

(** Modelled from the spec: the node classes of the [ir] module are not
    part of the sources.  They are those of the specification's IR node
    model, each constructor taking the arguments the translator passes
    to it and building the node without a further check.  [OfVar] is an
    [ir.Var] standing where a node is expected; [PyStr] is the plain
    Python [str] that [visit_Name] returns. *)
Inductive node :=
  | PyStr (s : string)
  | OfVar (v : Var)
  | Field (target : node) (attr : string)
  | BinaryOp (op : operator.fn) (l r : node)
  | UnaryOp (op : operator.fn) (e : node)
  | Call (fn : node) (args : list node)
  | Choose (args : list node)
  | Lit (value : ast.constant) (t : option pytype)
  | Unpack (e : node)
  | ListAccess (c i : node) (third : option node)
  | Assign (target : Var) (value : node)
  | Block (stmts : list node)
  | If (cond then_ else_ : node)
  | While (cond : node) (body : list node)
  | Return (value : option node)
  | Branch (k : branch_type)
  | FnDecl (fname : string) (params : list Var) (rtype : string) (body : node).

Record Program := mkProgram { imports : list string; fns : list node }.
End nodes.
Arguments Var T : clear implicits.
Arguments node T : clear implicits.
Arguments Program T : clear implicits.
End ir.

(** ** [frontend/python.py] *)

(** [eval] on the text [parse_type] built: the type object, or whatever
    exception the evaluation raises.  The evaluation is taken as a
    function of the text alone, that is, in the module's globals and the
    builtins: the names bound in the frame of the calling method
    ([self], [n], and in [visit_arguments] also [args], [a],
    [parsed_type], [type_] and [v]) are taken not to occur in an
    annotation.  The properties below treat the evaluated type as an
    opaque object. *)
Class PyEval (T : Type) := py_eval : string -> outcome T.

(** The attributes of a [Translator].  [fns] only ever holds the
    placeholder [None].  [vars] is [None] until [visit_FunctionDef]
    assigns a fresh dict, which happens before any use on the way from
    [translate] and [translate_file]; it is modelled from that point. *)
Record Translator (T : Type) := mkTranslator {
  fns : gmap string (option (ir.node T));
  imports : list string;
  vars : gmap string (ir.Var T)
}.
Arguments mkTranslator {T} fns imports vars.
Arguments fns {T} _.
Arguments imports {T} _.
Arguments vars {T} _.

Definition Translator_init {T : Type} : Translator T :=
  mkTranslator ∅ [] ∅.

Definition set_vars {T : Type} (self : Translator T) (vs : gmap string (ir.Var T))
  : Translator T :=
  mkTranslator (fns self) (imports self) vs.

Section translator.
Context {T : Type} `{!PyEval T}.

Local Abbreviation node := (ir.node T).
Local Abbreviation Var := (ir.Var T).

(** *** Expressions: they read [self.vars] and assign nothing. *)

Definition binop_tag (op : ast.operator) : outcome operator.fn :=
  match op with
  | ast.Add => Ok operator.add
  | ast.Sub => Ok operator.sub
  | ast.Mult => Ok operator.mul
  | ast.Div => Ok operator.floordiv
  | _ => Raise (TypeError "NYI; %s")
  end.

Definition unaryop_tag (op : ast.unaryop) : outcome operator.fn :=
  match op with
  | ast.Not => Ok operator.not_
  | _ => Raise (TypeError "NYI: %s")
  end.

Definition cmpop_tag (op : ast.cmpop) : outcome operator.fn :=
  match op with
  | ast.Eq => Ok operator.eq
  | ast.Lt => Ok operator.lt
  | ast.Gt => Ok operator.gt
  | ast.LtE => Ok operator.le
  | ast.GtE => Ok operator.ge
  | ast.NotEq => Ok operator.ne
  | _ => Raise (TypeError "NYI: %s")
  end.

Definition visit_Constant (value : ast.constant) : outcome node :=
  match value with
  | ast.CBool _ => Ok (ir.Lit value (Some ir.py_bool))
  | ast.CInt _ => Ok (ir.Lit value (Some ir.py_int))
  | ast.CNone => Ok (ir.Lit value None)
  | _ => Raise (TypeError "NYI: %s")
  end.

(** [resolve], with [self.visit] as [visit] so that [visit] below can be
    defined by recursion on the tree. *)
Definition resolve_with (visit : ast.expr -> outcome node)
    (self : Translator T) (v : ast.expr) (is_var : bool) : outcome node :=
  match v with
  | ast.Name id =>
      if is_var then
        match vars self !! id with
        | None => Raise (NameError ("variable not found: " +:+ id))
        | Some x => Ok (ir.OfVar x)
        end
      else Ok (ir.PyStr id)
  | ast.Attribute _ _ => visit v
  | ast.Constant _ => visit v
  | ast.Call _ _ => visit v
  | ast.Subscript _ _ => Raise (TypeError "xxx")
  | _ => Raise (TypeError "NYI: %s")
  end.

(** The test of [visit_Call]: [fn == "Choose"], or [fn] is an
    [ir.Field] with [fn.target == "ir"] and [fn.name == "Choose"]. *)
Definition is_Choose (fn : node) : bool :=
  match fn with
  | ir.PyStr s => bool_decide (s = "Choose")
  | ir.Field (ir.PyStr t) a => bool_decide (t = "ir") && bool_decide (a = "Choose")
  | _ => false
  end.

Fixpoint visit (self : Translator T) (n : ast.expr) {struct n} : outcome node :=
  match n with
  | ast.Name id => Ok (ir.PyStr id)
  | ast.Attribute value attr =>
      v ← visit self value; Ok (ir.Field v attr)
  | ast.BinOp left_ op right_ =>
      new_op ← binop_tag op;
      l ← (if ast.is_Name left_ then resolve_with (visit self) self left_ true
           else visit self left_);
      r ← (if ast.is_Name right_ then resolve_with (visit self) self right_ true
           else visit self right_);
      Ok (ir.BinaryOp new_op l r)
  | ast.UnaryOp op operand =>
      new_op ← unaryop_tag op;
      e ← resolve_with (visit self) self operand true;
      Ok (ir.UnaryOp new_op e)
  | ast.Compare left_ ops comparators =>
      if bool_decide (1 < length ops)%nat then Raise (TypeError "NYI: %s")
      else if bool_decide (1 < length comparators)%nat then Raise (TypeError "NYI: %s")
      else
        match ops with
        | [] => Raise IndexError
        | op :: _ =>
            new_op ← cmpop_tag op;
            l ← resolve_with (visit self) self left_ true;
            match comparators with
            | [] => Raise IndexError
            | c :: _ =>
                r ← resolve_with (visit self) self c true;
                Ok (ir.BinaryOp new_op l r)
            end
        end
  | ast.Call func args =>
      args' ← mapM (visit self) args;
      fn ← resolve_with (visit self) self func false;
      if is_Choose fn then Ok (ir.Choose args') else Ok (ir.Call fn args')
  | ast.Constant value => visit_Constant value
  | ast.Index value => visit self value
  | ast.Starred value =>
      v ← visit self value; Ok (ir.Unpack v)
  | ast.Subscript value slice =>
      c ← visit self value;
      i ← visit self slice;
      Ok (ir.ListAccess c i None)
  | ast.List_ _ | ast.Tuple _ | ast.OtherExpr _ => Unmodelled
  end.

Definition resolve (self : Translator T) (v : ast.expr) (is_var : bool)
  : outcome node :=
  resolve_with (visit self) self v is_var.

(** *** Type annotations *)

(** [sep.join(l)]. *)
Fixpoint join (sep : string) (l : list string) : string :=
  match l with
  | [] => ""
  | [x] => x
  | x :: l' => x +:+ sep +:+ join sep l'
  end.

Fixpoint parse_type (t : ast.expr) {struct t} : outcome string :=
  match t with
  | ast.Name id => Ok id
  | ast.Index value => parse_type value
  | ast.Subscript value slice =>
      base ← parse_type value;
      elts ← parse_type slice;
      Ok (base +:+ "[" +:+ elts +:+ "]")
  | ast.List_ elts =>
      es ← mapM parse_type elts; Ok ("[" +:+ join ", " es +:+ "]")
  | ast.Tuple elts =>
      es ← mapM parse_type elts; Ok (join ", " es)
  | _ => Raise (TypeError "NYI: %s")
  end.

(** [parse_type] on a field that may hold [None] (a parameter without
    annotation, a function without [-> type]): no branch matches and
    formatting the message raises [TypeError] itself. *)
Definition parse_type_opt (t : option ast.expr) : outcome string :=
  match t with
  | Some t => parse_type t
  | None => Raise (TypeError "expected AST, got %r")
  end.

(** *** Statements: they thread [self] *)

(** [[self.visit(s) for s in body]] with the state passed along. *)
Definition mapM_st {S A B : Type} (f : S -> A -> outcome (B * S))
  : S -> list A -> outcome (list B * S) :=
  fix go (s : S) (xs : list A) : outcome (list B * S) :=
    match xs with
    | [] => Ok ([], s)
    | x :: xs' =>
        '(y, s1) ← f s x;
        '(ys, s2) ← go s1 xs';
        Ok (y :: ys, s2)
    end.

(** The loop of [visit_arguments]; [acc] is the local list [args]. *)
Fixpoint visit_arguments_loop (self : Translator T) (l : list ast.arg)
    (acc : list Var) : outcome (list Var * Translator T) :=
  match l with
  | [] => Ok (acc, self)
  | a :: l' =>
      parsed_type ← parse_type_opt (ast.annotation a);
      type_ ← py_eval parsed_type;
      let v := ir.mkVar (ast.arg_name a) type_ in
      visit_arguments_loop (set_vars self (<[ir.name v := v]> (vars self))) l'
        (acc ++ [v])
  end.

Definition visit_arguments (self : Translator T) (n : ast.arguments)
  : outcome (list Var * Translator T) :=
  visit_arguments_loop self (ast.args n) [].

(** The value of an assignment or annotated declaration:
    [resolve] for a bare name, [visit] for the rest. *)
Definition visit_value (self : Translator T) (value : ast.expr) : outcome node :=
  if ast.is_Name value then resolve self value true else visit self value.

Definition visit_AnnAssign (self : Translator T) (target ann : ast.expr)
    (value : option ast.expr) : outcome (node * Translator T) :=
  id ← match target with
       | ast.Name id => Ok id
       | _ => Raise AttributeError
       end;
  parsed_type ← parse_type ann;
  type_ ← py_eval parsed_type;
  let v := ir.mkVar id type_ in
  let self' := set_vars self (<[ir.name v := v]> (vars self)) in
  match value with
  | Some e => val ← visit_value self' e; Ok (ir.Assign v val, self')
  | None => Ok (ir.OfVar v, self')
  end.

(** [self.vars[key]] for the value [self.visit(target)] returned.  Only a
    [str] can be a key of [vars]; for a node the lookup fails too (with
    [KeyError], or [TypeError] should the node class be unhashable). *)
Definition vars_getitem (self : Translator T) (key : node) : outcome Var :=
  match key with
  | ir.PyStr id =>
      match vars self !! id with
      | Some v => Ok v
      | None => Raise KeyError
      end
  | _ => Raise KeyError
  end.

Definition visit_Assign (self : Translator T) (targets : list ast.expr)
    (value : ast.expr) : outcome node :=
  val ← visit_value self value;
  if bool_decide (1 < length targets)%nat then Raise (TypeError "multi-assign NYI: %s")
  else
    match targets with
    | [] => Raise IndexError
    | t :: _ =>
        key ← visit self t;
        v ← vars_getitem self key;
        Ok (ir.Assign v val)
    end.

Definition visit_Return (self : Translator T) (value : option ast.expr)
  : outcome node :=
  match value with
  | None => Ok (ir.Return None)
  | Some e =>
      v ← (if ast.is_Name e || ast.is_Num e || ast.is_Str e
           then resolve self e true else visit self e);
      Ok (ir.Return (Some v))
  end.

(** [self.visit] on a statement. *)
Fixpoint visit_stmt (self : Translator T) (n : ast.stmt) {struct n}
  : outcome (node * Translator T) :=
  match n with
  | ast.FunctionDef name a body returns =>
      let self0 := set_vars self ∅ in
      '(params, self1) ← visit_arguments self0 a;
      '(body', self2) ← mapM_st visit_stmt self1 body;
      rtype ← parse_type_opt returns;
      Ok (ir.FnDecl name params rtype (ir.Block body'), self2)
  | ast.Return value =>
      r ← visit_Return self value; Ok (r, self)
  | ast.Assign targets value =>
      r ← visit_Assign self targets value; Ok (r, self)
  | ast.AnnAssign target ann value => visit_AnnAssign self target ann value
  | ast.While test body _ =>
      c ← visit self test;
      '(body', self1) ← mapM_st visit_stmt self body;
      Ok (ir.While c body', self1)
  | ast.If test body orelse =>
      c ← visit self test;
      '(body', self1) ← mapM_st visit_stmt self body;
      '(orelse', self2) ← mapM_st visit_stmt self1 orelse;
      Ok (ir.If c (ir.Block body') (ir.Block orelse'), self2)
  | ast.Expr value =>
      r ← visit self value; Ok (r, self)
  | ast.Break => Ok (ir.Branch ir.BreakT, self)
  | ast.Continue => Ok (ir.Branch ir.ContinueT, self)
  | ast.Import_ _ | ast.OtherStmt _ => Unmodelled
  end.

Definition visit_FunctionDef (self : Translator T) (name : string)
    (a : ast.arguments) (body : list ast.stmt) (returns : option ast.expr)
  : outcome (node * Translator T) :=
  visit_stmt self (ast.FunctionDef name a body returns).

(** *** Modules *)

Definition is_FunctionDef (s : ast.stmt) : bool :=
  match s with ast.FunctionDef _ _ _ _ => true | _ => false end.

(** One turn of the first loop of [visit_Module]. *)
Definition register (self : Translator T) (s : ast.stmt) : outcome (Translator T) :=
  match s with
  | ast.FunctionDef name _ _ _ =>
      Ok (mkTranslator (<[name := None]> (fns self)) (imports self) (vars self))
  | ast.Import_ names =>
      match names with
      | [] => Raise IndexError
      | a :: _ =>
          Ok (mkTranslator (fns self) (imports self ++ [ast.alias_name a]) (vars self))
      end
  | _ => Ok self
  end.

Fixpoint register_all (self : Translator T) (body : list ast.stmt)
  : outcome (Translator T) :=
  match body with
  | [] => Ok self
  | s :: body' => self' ← register self s; register_all self' body'
  end.

Definition visit_Module (self : Translator T) (n : ast.Module_)
  : outcome (ir.Program T * Translator T) :=
  self1 ← register_all self (ast.body n);
  '(fns', self2) ← mapM_st visit_stmt self1 (filter is_FunctionDef (ast.body n));
  Ok (ir.mkProgram (imports self2) fns', self2).

(** [translate] and [translate_file] once the source is parsed. *)
Definition translate (tree : ast.Module_) : outcome (ir.Program T) :=
  '(p, _) ← visit_Module Translator_init tree; Ok p.
End translator.

(** ** [metalift/concrete.py] *)
Module concrete.
Local Open Scope Z_scope.

Definition _MaxInt : Z := Z.shiftl 1 (32 - 1) - 1.
Definition _MinInt : Z := - Z.shiftl 1 (32 - 1).
Definition _SpecialInt : list Z := [-1; 1; 0; _MinInt; _MaxInt].
Definition _SmallIntMin : Z := -13.
Definition _SmallIntMax : Z := 13.

(** The Python values that occur: ints, and the [None] a function
    returns when it falls off its end. *)
Inductive value :=
  | Int (z : Z)
  | None_.

(** Modelled from the spec: [metalift.ir.Type] is not part of the
    sources.  A type descriptor is a name with type arguments; only the
    name is read. *)
Inductive Type_ := mkType (name : string) (args : list Type_).

Definition Type_name (tpe : Type_) : string :=
  match tpe with mkType name _ => name end.

(** Modelled from the spec: [metalift.analysis_new.AnalysisResult] is
    not part of the sources.  An analysis descriptor is the function
    name, the arguments (each with its [type]) and the return type. *)
Record Argument := { arg_name : string; type : Type_ }.

Record AnalysisResult := {
  name : string;
  arguments : list Argument;
  return_type : Type_
}.

(** *** [random.Random]

    The two methods used, as CPython defines them over one draw of
    [_randbelow]: [choice(seq)] is [seq[_randbelow(len(seq))]] and
    [randint(a, b)] is [a + _randbelow(b - a + 1)]. *)
Class Random (R : Type) := randbelow : R -> Z -> Z * R.

(** What [_randbelow(n)] promises: a draw in [[0, n)]. *)
Class RandomRange (R : Type) `{!Random R} : Prop :=
  randbelow_range : forall (rnd : R) (n : Z),
    0 < n -> 0 <= (randbelow rnd n).1 < n.

Section sampler.
Context {R : Type} `{!Random R}.

(** [seq[i]] on a Python list: a negative index counts from the end. *)
Definition getitem {A : Type} (seq : list A) (i : Z) : option A :=
  if bool_decide (0 <= i) then seq !! Z.to_nat i
  else if bool_decide (- Z.of_nat (length seq) <= i)
       then seq !! Z.to_nat (Z.of_nat (length seq) + i)
       else None.

Definition choice {A : Type} (rnd : R) (seq : list A) : outcome (A * R) :=
  match seq with
  | [] => Raise IndexError
  | _ =>
      let '(i, rnd') := randbelow rnd (Z.of_nat (length seq)) in
      match getitem seq i with
      | Some x => Ok (x, rnd')
      | None => Raise IndexError
      end
  end.

Definition randint (rnd : R) (a b : Z) : outcome (Z * R) :=
  if bool_decide (0 < b - a + 1) then
    let '(k, rnd') := randbelow rnd (b - a + 1) in Ok (a + k, rnd')
  else Raise (OtherError "ValueError").

(** [Generator.sample_int]; [self.rnd] is passed along. *)
Definition sample_int (rnd : R) : outcome (value * R) :=
  '(choice_, rnd1) ← choice rnd ["All"; "Small"; "Special"]%string;
  if bool_decide (choice_ = "All"%string) then
    '(z, rnd2) ← randint rnd1 _MinInt _MaxInt; Ok (Int z, rnd2)
  else if bool_decide (choice_ = "Small"%string) then
    '(z, rnd2) ← randint rnd1 _SmallIntMin _SmallIntMax; Ok (Int z, rnd2)
  else if bool_decide (choice_ = "Special"%string) then
    '(z, rnd2) ← choice rnd1 _SpecialInt; Ok (Int z, rnd2)
  else Ok (None_, rnd1).

Definition sample_tpe (rnd : R) (tpe : Type_) : outcome (value * R) :=
  if bool_decide (Type_name tpe = "Int"%string) then sample_int rnd
  else Raise (NotImplementedError "TODO: {tpe}").

Definition sample_args (rnd : R) (analysis : AnalysisResult)
  : outcome (list value * R) :=
  mapM_st (fun rnd arg => sample_tpe rnd (type arg)) rnd (arguments analysis).

(** The body of the [for] loop of [gen_traces], [n] turns of it. *)
Fixpoint gen_traces_loop (cfunc : list value -> value) (analysis : AnalysisResult)
    (n : nat) (rnd : R) (traces : list (value * list value))
  : outcome (list (value * list value) * R) :=
  match n with
  | O => Ok (traces, rnd)
  | S n' =>
      '(args, rnd') ← sample_args rnd analysis;
      let ret := cfunc args in
      gen_traces_loop cfunc analysis n' rnd' (traces ++ [(ret, args)])
  end.

(** [gen_traces]: the callable is any function of the argument list;
    the generator comes back in the state the draws left it in. *)
Definition gen_traces (cfunc : list value -> value) (analysis : AnalysisResult)
    (rnd : R) (count : Z) : outcome (list (value * list value) * R) :=
  if bool_decide (count >= 0) then
    gen_traces_loop cfunc analysis (Z.to_nat count) rnd []
  else Raise AssertionError.
End sampler.

(** *** The native bridge *)

Inductive ctype := c_int.

(** A [ctypes] foreign function: the prototype [CFUNCTYPE(restype,
    *argtypes)] applied to an address. *)
Record CFuncPtr := mkCFuncPtr {
  restype : ctype;
  argtypes : list ctype;
  address : Z
}.

Definition _meta_tpe_to_c_tpe (tpe : Type_) : outcome ctype :=
  if bool_decide (Type_name tpe = "Int"%string) then Ok c_int
  else Raise (NotImplementedError "TODO: {tpe}").

(** [_analysis_to_c_func]: the prototype, as a function of the address. *)
Definition _analysis_to_c_func (analysis : AnalysisResult)
  : outcome (Z -> CFuncPtr) :=
  let types := return_type analysis :: map type (arguments analysis) in
  c_types ← mapM _meta_tpe_to_c_tpe types;
  match c_types with
  | [] => Raise (TypeError "CFUNCTYPE")
  | res :: args => Ok (mkCFuncPtr res args)
  end.

(** The calls into [llvmlite] and the file system, over a state [W] of
    the process outside the interpreter. *)
Class Llvm (W Mod Target Machine Engine : Type) := {
  open_read : string -> W -> outcome (string * W);
  parse_assembly : string -> W -> outcome (Mod * W);
  verify : Mod -> W -> outcome (unit * W);
  from_default_triple : W -> outcome (Target * W);
  create_target_machine : Target -> W -> outcome (Machine * W);
  create_mcjit_compiler : Mod -> Machine -> W -> outcome (Engine * W);
  add_module : Engine -> Mod -> W -> outcome (unit * W);
  finalize_object : Engine -> W -> outcome (unit * W);
  run_static_constructors : Engine -> W -> outcome (unit * W);
  get_function_address : Engine -> string -> W -> outcome (Z * W)
}.

Section bridge.
Context {W Mod Target Machine Engine : Type} `{!Llvm W Mod Target Machine Engine}.

Definition create_execution_engine (w : W) : outcome (Engine * W) :=
  '(target, w1) ← from_default_triple w;
  '(target_machine, w2) ← create_target_machine target w1;
  '(backing_mod, w3) ← parse_assembly "" w2;
  '(engine, w4) ← create_mcjit_compiler backing_mod target_machine w3;
  Ok (engine, w4).

(** The module global [_engine] and the state outside. *)
Record Process := mkProcess { _engine : option Engine; world : W }.

(** [compile_function] up to the address of the function (lines 59-75).
    An outcome [Raise] carries no state: what the global [_engine] holds
    when an exception leaves the function is given by [_engine_after]
    below. *)
Definition load_function (filename : string) (analysis : AnalysisResult)
    (p : Process) : outcome (Z * Process) :=
  '(llvm_ir, w1) ← open_read filename (world p);
  '(mod_, w2) ← parse_assembly llvm_ir w1;
  '(_, w3) ← verify mod_ w2;
  '(engine, w4) ← match _engine p with
                   | None => create_execution_engine w3
                   | Some e => Ok (e, w3)
                   end;
  '(_, w5) ← add_module engine mod_ w4;
  '(_, w6) ← finalize_object engine w5;
  '(_, w7) ← run_static_constructors engine w6;
  '(func_ptr, w8) ← get_function_address engine (name analysis) w7;
  Ok (func_ptr, mkProcess (Some engine) w8).

Definition compile_function (filename : string) (analysis : AnalysisResult)
    (p : Process) : outcome (CFuncPtr * Process) :=
  '(func_ptr, p') ← load_function filename analysis p;
  proto ← _analysis_to_c_func analysis;
  Ok (proto func_ptr, p').


End bridge.
End concrete.

(** ** Notions used in the statements *)

Section notions.
Context {T : Type}.

(** The operand rule as the specification words it: a bare identifier
    stands for its registered [Var], any other operand for what [visit]
    lowers it to. *)
Inductive lowers_operand (self : Translator T) : ast.expr -> ir.node T -> Prop :=
  | lowers_name (id : string) (v : ir.Var T) :
      vars self !! id = Some v ->
      lowers_operand self (ast.Name id) (ir.OfVar v)
  | lowers_other (e : ast.expr) (n : ir.node T) :
      ast.is_Name e = false ->
      visit self e = Ok n ->
      lowers_operand self e n.

(** The node classes [resolve] has a branch for that does not raise. *)
Definition resolvable (e : ast.expr) : bool :=
  match e with
  | ast.Name _ | ast.Attribute _ _ | ast.Constant _ | ast.Call _ _ => true
  | _ => false
  end.

(** The expressions [visit] lowers to a plain [str]: a name, possibly
    under [Index] wrappers. *)
Fixpoint bare_name (e : ast.expr) : option string :=
  match e with
  | ast.Name id => Some id
  | ast.Index value => bare_name value
  | _ => None
  end.

(** The callees [visit_Call] turns into a [Choose]: the name [Choose],
    and the attribute [Choose] of the name [ir]. *)
Definition is_hole_callee (func : ast.expr) : bool :=
  match func with
  | ast.Name id => bool_decide (id = "Choose")
  | ast.Attribute value attr =>
      bool_decide (bare_name value = Some "ir") && bool_decide (attr = "Choose")
  | _ => false
  end.

(** The callees the specification names: the bare name, or an attribute
    path that ends in it. *)
Definition names_hole_spec (func : ast.expr) : bool :=
  match func with
  | ast.Name id => bool_decide (id = "Choose")
  | ast.Attribute _ attr => bool_decide (attr = "Choose")
  | _ => false
  end.

(** The names of the functions a module body declares, and the first
    name of each of its [import] statements, in order. *)
Definition def_names (body : list ast.stmt) : list string :=
  omap (fun s => match s with
                 | ast.FunctionDef name _ _ _ => Some name
                 | _ => None
                 end) body.

Definition import_names (body : list ast.stmt) : list string :=
  omap (fun s => match s with
                 | ast.Import_ (a :: _) => Some (ast.alias_name a)
                 | _ => None
                 end) body.

(** [fns] after the registering loop has met [names]. *)
Definition register_names (m : gmap string (option (ir.node T))) (names : list string)
  : gmap string (option (ir.node T)) :=
  foldl (fun m name => <[name := None]> m) m names.

(** Two states of a translator with the same registry. *)
Definition same_registry (self self' : Translator T) : Prop :=
  fns self' = fns self /\ imports self' = imports self.

(** The trees [parse_type] has a branch for, all the way down. *)
Fixpoint annotation_shape (t : ast.expr) : bool :=
  match t with
  | ast.Name _ => true
  | ast.Index value => annotation_shape value
  | ast.Subscript value slice => annotation_shape value && annotation_shape slice
  | ast.List_ elts | ast.Tuple elts => forallb annotation_shape elts
  | _ => false
  end.

(** The [Var]s a node refers to. *)
Fixpoint var_refs (n : ir.node T) : list (ir.Var T) :=
  match n with
  | ir.PyStr _ | ir.Lit _ _ | ir.Branch _ => []
  | ir.OfVar v => [v]
  | ir.Field target _ => var_refs target
  | ir.BinaryOp _ l r => var_refs l ++ var_refs r
  | ir.UnaryOp _ e | ir.Unpack e => var_refs e
  | ir.Call fn args => var_refs fn ++ concat (map var_refs args)
  | ir.Choose args | ir.Block args => concat (map var_refs args)
  | ir.ListAccess c i third =>
      var_refs c ++ var_refs i
        ++ match third with Some x => var_refs x | None => [] end
  | ir.Assign target value => target :: var_refs value
  | ir.If c t e => var_refs c ++ var_refs t ++ var_refs e
  | ir.While c body => var_refs c ++ concat (map var_refs body)
  | ir.Return value => match value with Some x => var_refs x | None => [] end
  | ir.FnDecl _ params _ body => params ++ var_refs body
  end.

(** The exceptions lowering an expression can end in. *)
Definition expr_exn (e : exn) : Prop :=
  match e with
  | TypeError _ | NameError _ | IndexError => True
  | _ => False
  end.

(** A [Var] that is an entry of the symbol table. *)
Definition registered (self : Translator T) (v : ir.Var T) : Prop :=
  exists id, vars self !! id = Some v.

(** [vars] after the registrations of [vs], in order. *)
Definition register_vars (m : gmap string (ir.Var T)) (vs : list (ir.Var T))
  : gmap string (ir.Var T) :=
  foldl (fun m v => <[ir.name v := v]> m) m vs.

(** The translator with another registry and the same symbol table. *)
Definition with_registry (f : gmap string (option (ir.node T))) (i : list string)
    (self : Translator T) : Translator T :=
  mkTranslator f i (vars self).

(** Every entry of [vars] sits under the name of its [Var]. *)
Definition vars_keyed (self : Translator T) : Prop :=
  forall (id : string) (v : ir.Var T), vars self !! id = Some v -> ir.name v = id.

(** The names a statement can register: the targets of its annotated
    declarations and, for a function definition, its parameters. *)
Fixpoint binds (s : ast.stmt) : list string :=
  match s with
  | ast.AnnAssign (ast.Name id) _ _ => [id]
  | ast.If _ body orelse => concat (map binds body) ++ concat (map binds orelse)
  | ast.While _ body _ => concat (map binds body)
  | ast.FunctionDef _ a body _ =>
      (ast.arg_name <$> ast.args a) ++ concat (map binds body)
  | _ => []
  end.

(** A statement that holds a function definition. *)
Fixpoint has_def (s : ast.stmt) : bool :=
  match s with
  | ast.FunctionDef _ _ _ _ => true
  | ast.If _ body orelse => existsb has_def body || existsb has_def orelse
  | ast.While _ body _ => existsb has_def body
  | _ => false
  end.

(** The name of a function declaration node. *)
Definition FnDecl_name (n : ir.node T) : option string :=
  match n with ir.FnDecl fname _ _ _ => Some fname | _ => None end.

(** The module statements [visit_Module] looks at. *)
Definition is_def_or_import (s : ast.stmt) : bool :=
  match s with
  | ast.FunctionDef _ _ _ _ | ast.Import_ _ => true
  | _ => false
  end.

(** An [import] statement names at least one module (the grammar's
    [alias+]). *)
Definition import_has_name (s : ast.stmt) : Prop :=
  match s with ast.Import_ [] => False | _ => True end.

(** Every name the [import] statements of a module body import, in
    order: [import a, b] imports [a] and [b]. *)
Definition imported_names (body : list ast.stmt) : list string :=
  body ≫= (fun s => match s with
                    | ast.Import_ names => ast.alias_name <$> names
                    | _ => []
                    end).

(** An [import] statement that names exactly one module. *)
Definition imports_one_name (s : ast.stmt) : Prop :=
  match s with ast.Import_ names => length names = 1%nat | _ => True end.
End notions.

Section statement_notions.
Context {T : Type} `{!PyEval T}.

(** A [Var] declared by a parameter: it carries the parameter's name,
    and the parameter has an annotation of a shape [parse_type] accepts.
    The type of the [Var] is whatever the evaluation of the annotation's
    text returned; nothing is said about it. *)
Definition declares_param (a : ast.arg) (v : ir.Var T) : Prop :=
  ir.name v = ast.arg_name a
  /\ exists t text, ast.annotation a = Some t /\ parse_type t = Ok text.

(** A function definition lowered on its own, by a new translator. *)
Definition lower_alone (d : ast.stmt) : outcome (ir.node T) :=
  '(r, _) ← visit_stmt Translator_init d; Ok r.
End statement_notions.

(** ** Example trees *)

(** An evaluator for annotations: a scope that binds [int] and [bool]
    to themselves and nothing else. *)
Definition py_eval_builtin : PyEval string := fun s =>
  if bool_decide (s = "int" \/ s = "bool") then Ok s
  else Raise (NameError ("name is not defined: " +:+ s)).

Definition int_ann : option ast.expr := Some (ast.Name "int").

Definition param (x : string) : ast.arg :=
  {| ast.arg_name := x; ast.annotation := int_ann |}.

(** A translator inside a function with the parameters [a: int, b: int]. *)
Definition self_ab : Translator string :=
  set_vars Translator_init
    (<["b" := ir.mkVar "b" "int"]> (<["a" := ir.mkVar "a" "int"]> ∅)).

(** [a + b] *)
Definition a_plus_b : ast.expr := ast.BinOp (ast.Name "a") ast.Add (ast.Name "b").

Definition a_plus_b_ir : ir.node string :=
  ir.BinaryOp operator.add (ir.OfVar (ir.mkVar "a" "int")) (ir.OfVar (ir.mkVar "b" "int")).

Definition lit (z : Z) : ir.node string := ir.Lit (ast.CInt z) (Some ir.py_int).

Definition var_int (x : string) : ir.Var string := ir.mkVar x "int".



(** [import ir
     def f(x: int) -> int: return g(x, 1)
     def g(a: int, b: int) -> int: return g(b, a)] *)
Definition m_forward_call : ast.Module_ :=
  {| ast.body :=
      [ast.Import_ [{| ast.alias_name := "ir"; ast.asname := None |}];
       ast.FunctionDef "f" {| ast.args := [param "x"] |}
         [ast.Return (Some (ast.Call (ast.Name "g")
                              [ast.Name "x"; ast.Constant (ast.CInt 1)]))] int_ann;
       ast.FunctionDef "g" {| ast.args := [param "a"; param "b"] |}
         [ast.Return (Some (ast.Call (ast.Name "g")
                              [ast.Name "b"; ast.Name "a"]))] int_ann] |}.

(** [import a, b] *)
Definition m_import_two : ast.Module_ :=
  {| ast.body :=
      [ast.Import_ [{| ast.alias_name := "a"; ast.asname := None |};
                    {| ast.alias_name := "b"; ast.asname := None |}]] |}.

(** [def f(x: int) -> int: return Choose(x)
     def Choose(a: int) -> int: return a] *)
Definition m_Choose_declared : ast.Module_ :=
  {| ast.body :=
      [ast.FunctionDef "f" {| ast.args := [param "x"] |}
         [ast.Return (Some (ast.Call (ast.Name "Choose") [ast.Name "x"]))] int_ann;
       ast.FunctionDef "Choose" {| ast.args := [param "a"] |}
         [ast.Return (Some (ast.Name "a"))] int_ann] |}.

(** [def g(y: int) -> int: return y], met where [a] and [b] are
    registered. *)
Definition g_nested : ast.stmt :=
  ast.FunctionDef "g" {| ast.args := [param "y"] |}
    [ast.Return (Some (ast.Name "y"))] int_ann.

(** [c: int
     if c: d: int = a] *)
Definition declarations : list ast.stmt :=
  [ast.AnnAssign (ast.Name "c") (ast.Name "int") None;
   ast.If (ast.Name "c")
     [ast.AnnAssign (ast.Name "d") (ast.Name "int") (Some (ast.Name "a"))] []].

(** ** Notions and examples for [concrete.py] *)

Section trace_notions.
Context {R : Type} `{!concrete.Random R}.

End trace_notions.



(** A Python int within the signed 32-bit range. *)
Definition int32_value (v : concrete.value) : Prop :=
  match v with
  | concrete.Int z => (- 2 ^ 31 <= z <= 2 ^ 31 - 1)%Z
  | concrete.None_ => False
  end.

Definition is_Int_type (tpe : concrete.Type_) : Prop :=
  concrete.Type_name tpe = "Int".

(** The types a descriptor mentions: the return type, then the
    arguments' types. *)
Definition descriptor_types (analysis : concrete.AnalysisResult)
  : list concrete.Type_ :=
  concrete.return_type analysis
    :: (concrete.type <$> concrete.arguments analysis).

(** A generator for the examples: a linear congruential state, a draw
    being the state reduced modulo the bound. *)
Definition lcg : concrete.Random Z := fun (s n : Z) =>
  ((s `mod` n)%Z, ((s * 1103515245 + 12345) `mod` 2 ^ 31)%Z).

Definition Int_type : concrete.Type_ := concrete.mkType "Int" [].
Definition Float_type : concrete.Type_ := concrete.mkType "Float" [].

Definition argument (x : string) (t : concrete.Type_) : concrete.Argument :=
  {| concrete.arg_name := x; concrete.type := t |}.

(** [int f(int a, int b)] and [int h(float a)]. *)
Definition analysis_ints : concrete.AnalysisResult :=
  {| concrete.name := "f";
     concrete.arguments := [argument "a" Int_type; argument "b" Int_type];
     concrete.return_type := Int_type |}.

Definition analysis_float : concrete.AnalysisResult :=
  {| concrete.name := "h";
     concrete.arguments := [argument "a" Float_type];
     concrete.return_type := Int_type |}.


(** [float k()], a descriptor without arguments. *)
Definition analysis_no_arguments : concrete.AnalysisResult :=
  {| concrete.name := "k";
     concrete.arguments := [];
     concrete.return_type := Float_type |}.

(** A callable: the sum of its int arguments. *)
Definition sum_args (args : list concrete.value) : concrete.value :=
  concrete.Int (foldr (fun v acc => match v with
                                    | concrete.Int z => (z + acc)%Z
                                    | concrete.None_ => acc
                                    end) 0%Z args).

(** A backend for the examples in which every call succeeds and every
    symbol sits at address 4096. *)
Definition llvm_ok : concrete.Llvm unit unit unit unit unit := {|
  concrete.open_read := fun _ w => Ok ("", w);
  concrete.parse_assembly := fun _ w => Ok (tt, w);
  concrete.verify := fun _ w => Ok (tt, w);
  concrete.from_default_triple := fun w => Ok (tt, w);
  concrete.create_target_machine := fun _ w => Ok (tt, w);
  concrete.create_mcjit_compiler := fun _ _ w => Ok (tt, w);
  concrete.add_module := fun _ _ w => Ok (tt, w);
  concrete.finalize_object := fun _ w => Ok (tt, w);
  concrete.run_static_constructors := fun _ w => Ok (tt, w);
  concrete.get_function_address := fun _ _ w => Ok (4096%Z, w)
|}.


(** * Properties *)

(** ** Outcomes and comprehensions *)

Lemma bind_Ok_inv {A B : Type} (m : outcome A) (f : A -> outcome B) (b : B) :
  m ≫= f = Ok b -> exists a, m = Ok a /\ f a = Ok b.
Proof. destruct m as [a|e|]; simpl; intros H; [eauto | discriminate..]. Qed.

Lemma mapM_Forall2 {A B : Type} (f : A -> outcome B) (xs : list A) (ys : list B) :
  mapM f xs = Ok ys <-> Forall2 (fun x y => f x = Ok y) xs ys.
Proof.
  revert ys. induction xs as [|x xs IH]; intros ys; simpl.
  - split.
    + intros [= <-]. constructor.
    + intros H. inversion H. reflexivity.
  - split.
    + intros H. apply bind_Ok_inv in H as (y & Hy & H).
      apply bind_Ok_inv in H as (ys' & Hys & [= <-]).
      constructor; [exact Hy | by apply IH].
    + intros H. inversion H as [|? y ? ys' Hy Hys]; subst.
      rewrite Hy. simpl. apply IH in Hys. fold (mapM f xs). rewrite Hys. reflexivity.
Qed.

Lemma mapM_length {A B : Type} (f : A -> outcome B) xs ys :
  mapM f xs = Ok ys -> length ys = length xs.
Proof. intros H. apply mapM_Forall2 in H. symmetry. by eapply Forall2_length. Qed.

Lemma mapM_lookup {A B : Type} (f : A -> outcome B) xs ys (i : nat) x :
  mapM f xs = Ok ys -> xs !! i = Some x -> exists y, ys !! i = Some y /\ f x = Ok y.
Proof.
  intros H Hx. apply mapM_Forall2 in H.
  destruct (Forall2_lookup_l _ _ _ _ _ H Hx) as (y & Hy & Hf). eauto.
Qed.

Section translator_facts.
Context {T : Type} `{!PyEval T}.
Implicit Types (self : Translator T) (n : ast.expr) (id : string).

(** ** The handlers, one equation each *)

Lemma visit_Name self id : visit self (ast.Name id) = Ok (ir.PyStr id).
Proof. reflexivity. Qed.

Lemma visit_Call self func args :
  visit self (ast.Call func args) =
    args' ← mapM (visit self) args;
    fn ← resolve self func false;
    if is_Choose fn then Ok (ir.Choose args') else Ok (ir.Call fn args').
Proof. reflexivity. Qed.

Lemma visit_BinOp self l op r :
  visit self (ast.BinOp l op r) =
    new_op ← binop_tag op;
    l' ← visit_value self l;
    r' ← visit_value self r;
    Ok (ir.BinaryOp new_op l' r').
Proof. reflexivity. Qed.

Lemma visit_UnaryOp self op e :
  visit self (ast.UnaryOp op e) =
    new_op ← unaryop_tag op;
    e' ← resolve self e true;
    Ok (ir.UnaryOp new_op e').
Proof. reflexivity. Qed.

Lemma visit_Compare1 self l op r :
  visit self (ast.Compare l [op] [r]) =
    new_op ← cmpop_tag op;
    l' ← resolve self l true;
    r' ← resolve self r true;
    Ok (ir.BinaryOp new_op l' r').
Proof. reflexivity. Qed.

Lemma resolve_Name_var self id :
  resolve self (ast.Name id) true =
    match vars self !! id with
    | None => Raise (NameError ("variable not found: " +:+ id))
    | Some x => Ok (ir.OfVar x)
    end.
Proof. reflexivity. Qed.

Lemma resolve_Name_fn self id :
  resolve self (ast.Name id) false = Ok (ir.PyStr id).
Proof. reflexivity. Qed.

(** Take a successful sequence of binds apart. *)
Ltac inv_bind H :=
  repeat match type of H with
  | _ ≫= _ = Ok _ =>
      let a := fresh "a" in let Ha := fresh "Ha" in
      apply bind_Ok_inv in H as (a & Ha & H)
  end.

Lemma visit_Constant_Lit (value : ast.constant) (r : ir.node T) :
  visit_Constant value = Ok r -> exists t, r = ir.Lit value t.
Proof. destruct value; simpl; intros [= <-]; eauto. Qed.

(** [visit] returns a [str] exactly on a bare name. *)
Lemma visit_PyStr self n (s : string) :
  visit self n = Ok (ir.PyStr s) <-> bare_name n = Some s.
Proof.
  induction n; simpl; try (split; [intros H; inv_bind H; discriminate | discriminate]).
  - split; congruence.
  - split; [|discriminate]. intros H.
    repeat case_bool_decide; try discriminate.
    destruct ops as [|o ops]; [discriminate|]. inv_bind H.
    destruct comparators; [discriminate|]. inv_bind H. discriminate.
  - split; [|discriminate]. intros H. inv_bind H.
    destruct (is_Choose a0); discriminate.
  - split; [|discriminate]. intros H.
    apply visit_Constant_Lit in H as [t H]. discriminate.
  - exact IHn.
Qed.

(** Outside the hole callees, no callee resolves to what [visit_Call]
    takes for [Choose]. *)
Lemma is_Choose_resolve self func (fn : ir.node T) :
  resolve self func false = Ok fn ->
  is_Choose fn = is_hole_callee func.
Proof.
  destruct func; try discriminate; unfold resolve; simpl.
  - intros [= <-]. reflexivity.
  - intros H. inv_bind H. injection H as <-.
    destruct (bare_name func) as [s|] eqn:Hb.
    + apply (visit_PyStr self) in Hb. rewrite Hb in Ha. injection Ha as <-. simpl.
      f_equal. apply bool_decide_ext. split; congruence.
    + rewrite (bool_decide_eq_false_2 (None = Some "ir")) by discriminate.
      destruct a as [s| | | | | | | | | | | | | | | |]; try reflexivity.
      apply visit_PyStr in Ha. congruence.
  - intros H. inv_bind H. destruct (is_Choose a0); injection H as <-; reflexivity.
  - intros H. apply visit_Constant_Lit in H as [t ->]. reflexivity.
Qed.

Lemma resolve_not_resolvable self n (is_var : bool) :
  resolvable n = false ->
  exists msg, resolve self n is_var = Raise (TypeError msg).
Proof. destruct n; try discriminate; intros _; unfold resolve; simpl; eauto. Qed.

Lemma resolve_lowers_operand self n (r : ir.node T) :
  lowers_operand self n r -> resolvable n = true ->
  resolve self n true = Ok r.
Proof.
  intros [id v Hv|e r' Hname He] Hres.
  - rewrite resolve_Name_var, Hv. reflexivity.
  - destruct e; try discriminate; exact He.
Qed.

Lemma visit_value_lowers_operand self n (r : ir.node T) :
  lowers_operand self n r -> visit_value self n = Ok r.
Proof.
  intros [id v Hv|e r' Hname He]; unfold visit_value.
  - change (resolve self (ast.Name id) true = Ok (ir.OfVar v)).
    rewrite resolve_Name_var, Hv. reflexivity.
  - rewrite Hname. exact He.
Qed.
(** ** Operands of operators *)

(** C1, as amended.  The operand of a binary operator is lowered by the
    operand rule: a bare identifier becomes the reference to its
    registered [Var], any other operand is lowered by [visit].  The
    operands of a unary operator and of a comparison go through
    [resolve]: a bare identifier becomes the reference to its registered
    [Var]; an attribute, a constant or a call is lowered by [visit]; an
    operand of any other class (a binary or unary operation, a
    comparison, a subscript, ...) raises [TypeError] and is not
    lowered. *)
Theorem C1_operand_lowering self :
  (forall op tag l r (l' r' : ir.node T),
      binop_tag op = Ok tag ->
      lowers_operand self l l' -> lowers_operand self r r' ->
      visit self (ast.BinOp l op r) = Ok (ir.BinaryOp tag l' r'))
  /\ (forall op tag e (e' : ir.node T),
      unaryop_tag op = Ok tag ->
      lowers_operand self e e' -> resolvable e = true ->
      visit self (ast.UnaryOp op e) = Ok (ir.UnaryOp tag e'))
  /\ (forall op tag e,
      unaryop_tag op = Ok tag -> resolvable e = false ->
      exists msg, visit self (ast.UnaryOp op e) = Raise (TypeError msg))
  /\ (forall op tag l r (l' r' : ir.node T),
      cmpop_tag op = Ok tag ->
      lowers_operand self l l' -> lowers_operand self r r' ->
      resolvable l = true -> resolvable r = true ->
      visit self (ast.Compare l [op] [r]) = Ok (ir.BinaryOp tag l' r'))
  /\ (forall op tag l r,
      cmpop_tag op = Ok tag -> resolvable l = false ->
      exists msg, visit self (ast.Compare l [op] [r]) = Raise (TypeError msg))
  /\ (forall op tag l r (l' : ir.node T),
      cmpop_tag op = Ok tag ->
      lowers_operand self l l' -> resolvable l = true -> resolvable r = false ->
      exists msg, visit self (ast.Compare l [op] [r]) = Raise (TypeError msg)).
Proof.
  repeat split.
  - intros op tag l r l' r' Hop Hl Hr.
    rewrite visit_BinOp, Hop. simpl.
    rewrite (visit_value_lowers_operand _ _ _ Hl). simpl.
    rewrite (visit_value_lowers_operand _ _ _ Hr). reflexivity.
  - intros op tag e e' Hop He Hres.
    rewrite visit_UnaryOp, Hop. simpl.
    rewrite (resolve_lowers_operand _ _ _ He Hres). reflexivity.
  - intros op tag e Hop Hres.
    destruct (resolve_not_resolvable self e true Hres) as [msg Hmsg].
    exists msg. rewrite visit_UnaryOp, Hop. simpl. rewrite Hmsg. reflexivity.
  - intros op tag l r l' r' Hop Hl Hr Hresl Hresr.
    rewrite visit_Compare1, Hop. simpl.
    rewrite (resolve_lowers_operand _ _ _ Hl Hresl). simpl.
    rewrite (resolve_lowers_operand _ _ _ Hr Hresr). reflexivity.
  - intros op tag l r Hop Hres.
    destruct (resolve_not_resolvable self l true Hres) as [msg Hmsg].
    exists msg. rewrite visit_Compare1, Hop. simpl. rewrite Hmsg. reflexivity.
  - intros op tag l r l' Hop Hl Hresl Hresr.
    destruct (resolve_not_resolvable self r true Hresr) as [msg Hmsg].
    exists msg. rewrite visit_Compare1, Hop. simpl.
    rewrite (resolve_lowers_operand _ _ _ Hl Hresl). simpl.
    rewrite Hmsg. reflexivity.
Qed.

(** ** Calls *)

(** C3, as amended.  When the [k] arguments of a call lower, they lower
    to [k] nodes in argument order, and: a call whose callee is the bare
    name [Choose], or the attribute [Choose] of the bare name [ir],
    lowers to a [Choose] of these nodes; a call to any other callee that
    [resolve] accepts in callee position (a name, an attribute, a
    constant, a call) lowers to a [Call] of the resolved callee and these
    nodes; a callee of any other class raises. *)
Theorem C3_call_lowering self func args (args' : list (ir.node T)) :
  mapM (visit self) args = Ok args' ->
  length args' = length args
  /\ (forall (i : nat) a, args !! i = Some a ->
        exists a', args' !! i = Some a' /\ visit self a = Ok a')
  /\ (is_hole_callee func = true ->
        visit self (ast.Call func args) = Ok (ir.Choose args'))
  /\ (is_hole_callee func = false ->
        forall fn, resolve self func false = Ok fn ->
          visit self (ast.Call func args) = Ok (ir.Call fn args'))
  /\ (resolvable func = false ->
        exists msg, visit self (ast.Call func args) = Raise (TypeError msg)).
Proof.
  intros Hargs. split; [|split; [|split; [|split]]].
  - by eapply mapM_length.
  - intros i a Ha. by eapply mapM_lookup.
  - intros Hhole. rewrite visit_Call, Hargs. simpl.
    destruct func; try discriminate.
    + rewrite resolve_Name_fn. simpl. simpl in Hhole. rewrite Hhole. reflexivity.
    + simpl in Hhole. apply andb_prop in Hhole as [Hv Hattr].
      apply bool_decide_eq_true_1 in Hv, Hattr. subst attr.
      apply (visit_PyStr self) in Hv. unfold resolve. simpl.
      rewrite Hv. reflexivity.
  - intros Hhole fn Hfn. rewrite visit_Call, Hargs. simpl.
    rewrite Hfn. simpl.
    rewrite (is_Choose_resolve _ _ _ Hfn), Hhole. reflexivity.
  - intros Hres. destruct (resolve_not_resolvable self func false Hres) as [msg Hmsg].
    exists msg. rewrite visit_Call, Hargs. simpl. rewrite Hmsg. reflexivity.
Qed.

(** ** Names lowered by the generic name visitor *)

(** C10.  A bare identifier as a call argument or as the condition of
    an [if] or a [while] is lowered by [visit_Name] to the name itself,
    a plain [str]; the symbol table is not consulted, so the outcome is
    the same whether or not the name is registered, and where
    [resolve] raises [NameError] for it these positions do not. *)
Theorem C10_name_lowered_as_str self id :
  visit self (ast.Name id) = Ok (ir.PyStr id)
  /\ (vars self !! id = None ->
        resolve self (ast.Name id) true
          = Raise (NameError ("variable not found: " +:+ id)))
  /\ (forall func args (args' : list (ir.node T)) (i : nat),
        mapM (visit self) args = Ok args' ->
        args !! i = Some (ast.Name id) ->
        args' !! i = Some (ir.PyStr id)
        /\ forall fn, resolve self func false = Ok fn ->
             visit self (ast.Call func args)
               = Ok (if is_Choose fn then ir.Choose args' else ir.Call fn args'))
  /\ (forall ids : list string,
        mapM (visit self) (ast.Name <$> ids) = Ok (ir.PyStr <$> ids))
  /\ (forall body orelse body' orelse' self1 self2,
        mapM_st visit_stmt self body = Ok (body', self1) ->
        mapM_st visit_stmt self1 orelse = Ok (orelse', self2) ->
        visit_stmt self (ast.If (ast.Name id) body orelse)
          = Ok (ir.If (ir.PyStr id) (ir.Block body') (ir.Block orelse'), self2))
  /\ (forall body orelse body' self1,
        mapM_st visit_stmt self body = Ok (body', self1) ->
        visit_stmt self (ast.While (ast.Name id) body orelse)
          = Ok (ir.While (ir.PyStr id) body', self1)).
Proof.
  split; [reflexivity|]. split; [|split; [|split; [|split]]].
  - intros Hv. rewrite resolve_Name_var, Hv. reflexivity.
  - intros func args args' i Hargs Hi. split.
    + destruct (mapM_lookup _ _ _ _ _ Hargs Hi) as (a' & Ha' & Hv).
      rewrite visit_Name in Hv. congruence.
    + intros fn Hfn. rewrite visit_Call, Hargs. simpl. rewrite Hfn. simpl.
      by destruct (is_Choose fn).
  - intros ids. induction ids as [|x ids IH]; [reflexivity|].
    cbn [fmap list_fmap mapM]. rewrite visit_Name. simpl.
    fold (mapM (visit self) (ast.Name <$> ids)). rewrite IH. reflexivity.
  - intros body orelse body' orelse' self1 self2 Hb Ho.
    cbn [visit_stmt]. rewrite visit_Name. simpl.
    fold (mapM_st visit_stmt self body). rewrite Hb. simpl.
    fold (mapM_st visit_stmt self1 orelse). rewrite Ho. reflexivity.
  - intros body orelse body' self1 Hb.
    cbn [visit_stmt]. rewrite visit_Name. simpl.
    fold (mapM_st visit_stmt self body). rewrite Hb. reflexivity.
Qed.
End translator_facts.

Section translator_statements.
Context {T : Type} `{!PyEval T}.
Implicit Types (self : Translator T) (n : ast.expr) (id : string).

(** ** Induction on statements, through their bodies *)

Lemma stmt_ind_nested (P : ast.stmt -> Prop) :
  (forall name a body returns, Forall P body -> P (ast.FunctionDef name a body returns)) ->
  (forall value, P (ast.Return value)) ->
  (forall targets value, P (ast.Assign targets value)) ->
  (forall target ann value, P (ast.AnnAssign target ann value)) ->
  (forall test body orelse, Forall P body -> Forall P orelse ->
     P (ast.While test body orelse)) ->
  (forall test body orelse, Forall P body -> Forall P orelse ->
     P (ast.If test body orelse)) ->
  (forall names, P (ast.Import_ names)) ->
  (forall value, P (ast.Expr value)) ->
  P ast.Break -> P ast.Continue ->
  (forall cls, P (ast.OtherStmt cls)) ->
  forall s, P s.
Proof.
  intros HF HR HA HAn HW HI HIm HE HB HC HO.
  fix IH 1. intros s.
  assert (Hall : forall l : list ast.stmt, Forall P l).
  { fix IHl 1. intros [|x l]; constructor; [apply IH | apply IHl]. }
  destruct s.
  - apply HF, Hall.
  - apply HR.
  - apply HA.
  - apply HAn.
  - apply HW; apply Hall.
  - apply HI; apply Hall.
  - apply HIm.
  - apply HE.
  - apply HB.
  - apply HC.
  - apply HO.
Qed.

(** ** The registry is left alone while bodies are lowered *)

Lemma same_registry_refl self : same_registry self self.
Proof. by split. Qed.

Lemma same_registry_trans self1 self2 self3 :
  same_registry self1 self2 -> same_registry self2 self3 -> same_registry self1 self3.
Proof. intros [? ?] [? ?]. split; congruence. Qed.

Lemma same_registry_set_vars self vs : same_registry self (set_vars self vs).
Proof. by split. Qed.

Lemma mapM_st_same_registry (f : Translator T -> ast.stmt -> outcome (ir.node T * Translator T))
    (body : list ast.stmt) :
  Forall (fun s => forall self r self', f self s = Ok (r, self') -> same_registry self self') body ->
  forall self r self', mapM_st f self body = Ok (r, self') -> same_registry self self'.
Proof.
  induction 1 as [|s body Hs _ IH]; simpl; intros self r self' H.
  - injection H as _ <-. apply same_registry_refl.
  - apply bind_Ok_inv in H as ([y s1] & Hy & H). simpl in H.
    apply bind_Ok_inv in H as ([ys s2] & Hys & H). simpl in H.
    injection H as _ <-.
    eapply same_registry_trans; [by eapply Hs | by eapply IH].
Qed.

Lemma visit_arguments_loop_same_registry (l : list ast.arg) :
  forall self acc params self',
    visit_arguments_loop self l acc = Ok (params, self') -> same_registry self self'.
Proof.
  induction l as [|a l IH]; simpl; intros self acc params self' H.
  - injection H as _ <-. apply same_registry_refl.
  - apply bind_Ok_inv in H as (pt & _ & H).
    apply bind_Ok_inv in H as (ty & _ & H).
    apply IH in H. eapply same_registry_trans; [|exact H].
    apply same_registry_set_vars.
Qed.

Lemma visit_stmt_same_registry (s : ast.stmt) :
  forall self r self', visit_stmt self s = Ok (r, self') -> same_registry self self'.
Proof.
  induction s as [name a body returns IHb|value|targets value|target ann value
                 |test body orelse IHb IHo|test body orelse IHb IHo
                 |names|value| | |cls] using stmt_ind_nested;
    intros self r self' H; cbn [visit_stmt] in H.
  - apply bind_Ok_inv in H as ([params self1] & Hargs & H). simpl in H.
    apply bind_Ok_inv in H as ([body' self2] & Hbody & H). simpl in H.
    apply bind_Ok_inv in H as (rtype & _ & H). injection H as _ <-.
    apply visit_arguments_loop_same_registry in Hargs.
    apply (mapM_st_same_registry _ _ IHb) in Hbody.
    eapply same_registry_trans; [|exact Hbody].
    eapply same_registry_trans; [|exact Hargs].
    apply same_registry_set_vars.
  - apply bind_Ok_inv in H as (x & _ & H). injection H as _ <-.
    apply same_registry_refl.
  - apply bind_Ok_inv in H as (x & _ & H). injection H as _ <-.
    apply same_registry_refl.
  - unfold visit_AnnAssign in H.
    apply bind_Ok_inv in H as (x & _ & H).
    apply bind_Ok_inv in H as (pt & _ & H).
    apply bind_Ok_inv in H as (ty & _ & H).
    destruct value as [e|].
    + apply bind_Ok_inv in H as (val & _ & H). injection H as _ <-.
      apply same_registry_set_vars.
    + injection H as _ <-. apply same_registry_set_vars.
  - apply bind_Ok_inv in H as (c & _ & H).
    apply bind_Ok_inv in H as ([body' self1] & Hbody & H). simpl in H.
    injection H as _ <-. by apply (mapM_st_same_registry _ _ IHb) in Hbody.
  - apply bind_Ok_inv in H as (c & _ & H).
    apply bind_Ok_inv in H as ([body' self1] & Hbody & H). simpl in H.
    apply bind_Ok_inv in H as ([orelse' self2] & Horelse & H). simpl in H.
    injection H as _ <-.
    apply (mapM_st_same_registry _ _ IHb) in Hbody.
    apply (mapM_st_same_registry _ _ IHo) in Horelse.
    by eapply same_registry_trans.
  - discriminate.
  - apply bind_Ok_inv in H as (x & _ & H). injection H as _ <-.
    apply same_registry_refl.
  - injection H as _ <-. apply same_registry_refl.
  - injection H as _ <-. apply same_registry_refl.
  - discriminate.
Qed.

Lemma mapM_st_length {S A B : Type} (f : S -> A -> outcome (B * S)) xs :
  forall s ys s', mapM_st f s xs = Ok (ys, s') -> length ys = length xs.
Proof.
  induction xs as [|x xs IH]; simpl; intros s ys s' H.
  - by injection H as <- _.
  - apply bind_Ok_inv in H as ([y s1] & Hy & H). simpl in H.
    apply bind_Ok_inv in H as ([ys' s2] & Hys & H). simpl in H.
    injection H as <- _. simpl. f_equal. by eapply IH.
Qed.

(** ** The module pass *)

Lemma register_names_lookup (names : list string) :
  forall (m : gmap string (option (ir.node T))) (name : string),
    name ∈ names \/ m !! name = Some None ->
    register_names m names !! name = Some None.
Proof.
  induction names as [|x names IH]; simpl; intros m name H.
  - destruct H as [H|H]; [by apply elem_of_nil in H | exact H].
  - apply IH. destruct (decide (x = name)) as [->|Hne].
    + right. apply lookup_insert_eq.
    + destruct H as [H|H].
      * apply elem_of_cons in H as [->|H]; [done | by left].
      * right. by rewrite lookup_insert_ne.
Qed.

Lemma register_names_lookup_ne (names : list string) :
  forall (m : gmap string (option (ir.node T))) (name : string),
    name ∉ names -> register_names m names !! name = m !! name.
Proof.
  induction names as [|x names IH]; simpl; intros m name H; [reflexivity|].
  apply not_elem_of_cons in H as [Hne Hnot].
  rewrite IH by exact Hnot. by rewrite lookup_insert_ne.
Qed.

Lemma register_all_spec (body : list ast.stmt) :
  Forall import_has_name body ->
  forall self, exists self1,
    register_all self body = Ok self1
    /\ fns self1 = register_names (fns self) (def_names body)
    /\ imports self1 = imports self ++ import_names body
    /\ vars self1 = vars self.
Proof.
  induction 1 as [|s body Hs _ IH]; intros self.
  - exists self. simpl. by rewrite app_nil_r.
  - unfold def_names, import_names, register_names in *.
    destruct s as [name a b returns|?|? ?|? ? ?|? ? ?|? ? ?|[|al names]|?| | |?];
      try (destruct (IH self) as (self1 & H1 & H2 & H3 & H4);
           exists self1; simpl; by repeat split).
    + destruct (IH (mkTranslator (<[name := None]> (fns self)) (imports self) (vars self)))
        as (self1 & H1 & H2 & H3 & H4).
      exists self1. split; [exact H1|]. split; [exact H2|]. split; [exact H3|exact H4].
    + destruct (IH (mkTranslator (fns self) (imports self ++ [ast.alias_name al]) (vars self)))
        as (self1 & H1 & H2 & H3 & H4).
      exists self1. split; [exact H1|]. split; [exact H2|]. split; [|exact H4].
      rewrite H3. simpl. by rewrite <- app_assoc.
Qed.

Lemma filter_FunctionDef_length (body : list ast.stmt) :
  length (filter is_FunctionDef body) = length (@def_names body).
Proof.
  unfold def_names. induction body as [|s b IHb]; [reflexivity|].
  rewrite filter_cons. destruct s; simpl; try exact IHb.
  f_equal. exact IHb.
Qed.

Lemma visit_Call_Name self (f : string) args (args' : list (ir.node T)) :
  mapM (visit self) args = Ok args' ->
  visit self (ast.Call (ast.Name f) args)
    = Ok (if bool_decide (f = "Choose") then ir.Choose args'
          else ir.Call (ir.PyStr f) args').
Proof.
  intros Hargs. rewrite visit_Call, Hargs. simpl. by case_bool_decide.
Qed.

Lemma imports_one_name_spec (body : list ast.stmt) :
  Forall imports_one_name body -> @import_names body = imported_names body.
Proof.
  unfold import_names, imported_names.
  induction 1 as [|s body Hs _ IH]; [reflexivity|].
  destruct s as [| | | | | |[|al [|al' names]]| | | |]; simpl in *;
    try discriminate; try exact IH.
  by f_equal.
Qed.

Lemma mapM_st_app {S A B : Type} (f : S -> A -> outcome (B * S)) (xs ys : list A) :
  forall s xs' s1 ys' s2,
    mapM_st f s xs = Ok (xs', s1) ->
    mapM_st f s1 ys = Ok (ys', s2) ->
    mapM_st f s (xs ++ ys) = Ok (xs' ++ ys', s2).
Proof.
  induction xs as [|x xs IH]; simpl; intros s xs' s1 ys' s2 Hxs Hys.
  - by injection Hxs as <- <-.
  - apply bind_Ok_inv in Hxs as ([y s0] & Hy & Hxs). simpl in Hxs.
    apply bind_Ok_inv in Hxs as ([xs0 s0'] & Hxs0 & Hxs). simpl in Hxs.
    injection Hxs as <- <-. rewrite Hy. simpl.
    fold (mapM_st f s0 (xs ++ ys)).
    by rewrite (IH _ _ _ _ _ Hxs0 Hys).
Qed.

(** A function whose body returns a call by bare name, among other
    statements. *)
Lemma visit_FunctionDef_return_call self (fname : string) (a : ast.arguments)
    (pre post : list ast.stmt) (returns : option ast.expr) (g : string)
    (args : list ast.expr) params self1 pre' self2 (args' : list (ir.node T))
    post' self3 rtype :
  visit_arguments (set_vars self ∅) a = Ok (params, self1) ->
  mapM_st visit_stmt self1 pre = Ok (pre', self2) ->
  mapM (visit self2) args = Ok args' ->
  mapM_st visit_stmt self2 post = Ok (post', self3) ->
  parse_type_opt returns = Ok rtype ->
  g <> "Choose" ->
  visit_stmt self
    (ast.FunctionDef fname a
       (pre ++ ast.Return (Some (ast.Call (ast.Name g) args)) :: post) returns)
    = Ok (ir.FnDecl fname params rtype
            (ir.Block (pre' ++ ir.Return (Some (ir.Call (ir.PyStr g) args')) :: post')),
          self3).
Proof.
  intros Hparams Hpre Hargs Hpost Hret Hg.
  assert (Hreturn : mapM_st visit_stmt self2
                      (ast.Return (Some (ast.Call (ast.Name g) args)) :: post)
                    = Ok (ir.Return (Some (ir.Call (ir.PyStr g) args')) :: post', self3)).
  { cbn [mapM_st visit_stmt visit_Return ast.is_Name ast.is_Num ast.is_Str orb].
    rewrite (visit_Call_Name _ _ _ _ Hargs), bool_decide_eq_false_2 by exact Hg.
    cbn [mbind outcome_bind]. fold (mapM_st visit_stmt self2 post).
    by rewrite Hpost. }
  cbn [visit_stmt]. rewrite Hparams. cbn [mbind outcome_bind].
  rewrite (mapM_st_app _ _ _ _ _ _ _ _ Hpre Hreturn). cbn [mbind outcome_bind].
  by rewrite Hret.
Qed.

(** C4, as amended.  [visit_Module] first runs the registering loop over
    the whole body and only then lowers the function definitions.  The
    loop puts every declared function name into [fns] with the
    placeholder [None] and, when every [import] statement names one
    module, appends the imported names to [imports] in order of
    appearance (an [import] statement has at least one name, as the
    grammar has it).  Lowering a function leaves [fns] and [imports] as they
    are, so each function is lowered with every name already registered,
    and the program carries the collected imports.  A call to a bare
    name other than the reserved [Choose] lowers, once its arguments do,
    to a [Call] that keeps the name as a plain reference, whatever [fns]
    and [vars] hold, hence also for a function declared further down or
    the function itself; it does so as a returned value, an expression
    statement, an assigned value or an operand alike, all of which hand
    a call to [visit]; and a function whose body returns such a call
    lowers to the declaration holding that [Call], whenever its
    parameters, its other statements and its return annotation lower.
    Under the name [Choose] the call is a [Choose] node. *)
Theorem C4_module_registry self (m : ast.Module_) :
  Forall import_has_name (ast.body m) ->
  exists self1,
    register_all self (ast.body m) = Ok self1
    /\ (forall name, name ∈ def_names (ast.body m) -> fns self1 !! name = Some None)
    /\ (forall name, name ∉ def_names (ast.body m) -> fns self1 !! name = fns self !! name)
    /\ (Forall imports_one_name (ast.body m) ->
        imports self1 = imports self ++ imported_names (ast.body m))
    /\ visit_Module self m =
         ('(fns', self2) ← mapM_st visit_stmt self1
                             (filter is_FunctionDef (ast.body m));
          Ok (ir.mkProgram (imports self2) fns', self2))
    /\ (forall ds1 d ds2 r1 s1,
          filter is_FunctionDef (ast.body m) = ds1 ++ d :: ds2 ->
          mapM_st visit_stmt self1 ds1 = Ok (r1, s1) ->
          fns s1 = fns self1 /\ imports s1 = imports self1)
    /\ (forall p self2,
          visit_Module self m = Ok (p, self2) ->
          (Forall imports_one_name (ast.body m) ->
           ir.imports p = imports self ++ imported_names (ast.body m))
          /\ length (ir.fns p) = length (def_names (ast.body m))
          /\ forall name, name ∈ def_names (ast.body m) -> fns self2 !! name = Some None)
    /\ (forall (s : Translator T) (f : string) args (args' : list (ir.node T)),
          mapM (visit s) args = Ok args' ->
          visit s (ast.Call (ast.Name f) args)
            = Ok (if bool_decide (f = "Choose") then ir.Choose args'
                  else ir.Call (ir.PyStr f) args'))
    /\ (forall (s : Translator T) (fname : string) (a : ast.arguments)
               (pre post : list ast.stmt) (returns : option ast.expr) (g : string)
               (args : list ast.expr) params s1 pre' s2 (args' : list (ir.node T))
               post' s3 rtype,
          visit_arguments (set_vars s ∅) a = Ok (params, s1) ->
          mapM_st visit_stmt s1 pre = Ok (pre', s2) ->
          mapM (visit s2) args = Ok args' ->
          mapM_st visit_stmt s2 post = Ok (post', s3) ->
          parse_type_opt returns = Ok rtype ->
          g <> "Choose" ->
          visit_stmt s
            (ast.FunctionDef fname a
               (pre ++ ast.Return (Some (ast.Call (ast.Name g) args)) :: post) returns)
            = Ok (ir.FnDecl fname params rtype
                    (ir.Block (pre' ++ ir.Return (Some (ir.Call (ir.PyStr g) args'))
                                 :: post')),
                  s3))
    /\ (forall (s : Translator T) (f : string) (args : list ast.expr),
          let call := ast.Call (ast.Name f) args in
          (forall is_var, resolve s call is_var = visit s call)
          /\ visit_value s call = visit s call
          /\ visit_stmt s (ast.Return (Some call))
             = (r ← visit s call; Ok (ir.Return (Some r), s))
          /\ visit_stmt s (ast.Expr call) = (r ← visit s call; Ok (r, s))).
Proof.
  intros Hwf.
  destruct (register_all_spec _ Hwf self) as (self1 & Hreg & Hfns & Himp & Hvars).
  assert (Hlowered : forall ds r s1,
             mapM_st visit_stmt self1 ds = Ok (r, s1) -> same_registry self1 s1).
  { intros ds. apply mapM_st_same_registry.
    apply Forall_forall. intros s _. apply visit_stmt_same_registry. }
  pose proof (filter_FunctionDef_length (ast.body m)) as Hlen.
  exists self1. split; [exact Hreg|].
  split; [|split; [|split; [|split; [|split; [|split; [|split; [|split]]]]]]].
  - intros name Hin. rewrite Hfns. apply register_names_lookup. by left.
  - intros name Hnot. rewrite Hfns. by apply register_names_lookup_ne.
  - intros Hone. by rewrite Himp, (imports_one_name_spec _ Hone).
  - unfold visit_Module. rewrite Hreg. reflexivity.
  - intros ds1 d ds2 r1 s1 _ Hds1. by apply Hlowered in Hds1.
  - intros p self2 H. unfold visit_Module in H. rewrite Hreg in H. simpl in H.
    apply bind_Ok_inv in H as ([fns' s2] & Hdefs & H). simpl in H.
    injection H as <- <-.
    pose proof (Hlowered _ _ _ Hdefs) as [Hf Hi]. simpl.
    split; [|split].
    + intros Hone. by rewrite Hi, Himp, (imports_one_name_spec _ Hone).
    + apply mapM_st_length in Hdefs. congruence.
    + intros name Hin. rewrite Hf, Hfns. apply register_names_lookup. by left.
  - intros s f args args'. apply visit_Call_Name.
  - intros s fname a pre post returns g args params s1 pre' s2 args' post' s3 rtype.
    apply visit_FunctionDef_return_call.
  - intros s f args call. split; [reflexivity|]. split; [reflexivity|].
    split; [|reflexivity].
    cbn [visit_stmt visit_Return ast.is_Name ast.is_Num ast.is_Str orb].
    by destruct (visit s call).
Qed.

(** ** Plain assignments *)

Lemma visit_stmt_Assign self targets value :
  visit_stmt self (ast.Assign targets value) =
    val ← visit_value self value;
    if bool_decide (1 < length targets)%nat then Raise (TypeError "multi-assign NYI: %s")
    else match targets with
         | [] => Raise IndexError
         | t :: _ =>
             key ← visit self t;
             v ← vars_getitem self key;
             Ok (ir.Assign v val, self)
         end.
Proof.
  cbn [visit_stmt]. unfold visit_Assign.
  destruct (visit_value self value) as [val|e|]; simpl; try reflexivity.
  case_bool_decide; [reflexivity|].
  destruct targets as [|t ?]; [reflexivity|].
  destruct (visit self t) as [key|e|]; simpl; try reflexivity.
  by destruct (vars_getitem self key).
Qed.

(** C6.  A plain assignment with more than one target never yields a
    node: once its value has lowered, it raises the [TypeError] that
    names multi-assignment.  With the single target a name that is not
    in [vars] it never yields a node either: once the value has lowered,
    the lookup raises [KeyError].  With the single target a registered
    name it lowers, value permitting, to an [Assign] of that very [Var],
    and [vars] stays as it was. *)
Theorem C6_plain_assignment self targets value :
  ((1 < length targets)%nat ->
     (forall val, visit_value self value = Ok val ->
        visit_stmt self (ast.Assign targets value)
          = Raise (TypeError "multi-assign NYI: %s"))
     /\ (visit_value self value <> Unmodelled ->
           raises (visit_stmt self (ast.Assign targets value))))
  /\ (forall id, targets = [ast.Name id] -> vars self !! id = None ->
     (forall val, visit_value self value = Ok val ->
        visit_stmt self (ast.Assign targets value) = Raise KeyError)
     /\ (visit_value self value <> Unmodelled ->
           raises (visit_stmt self (ast.Assign targets value))))
  /\ (forall id v val, targets = [ast.Name id] -> vars self !! id = Some v ->
     visit_value self value = Ok val ->
     visit_stmt self (ast.Assign targets value) = Ok (ir.Assign v val, self)).
Proof.
  rewrite visit_stmt_Assign. split; [|split].
  - intros Hlen. split.
    + intros val ->. simpl. by rewrite bool_decide_eq_true_2.
    + intros Hval. destruct (visit_value self value) as [val|e|]; simpl.
      * rewrite bool_decide_eq_true_2 by exact Hlen. by eexists.
      * by eexists.
      * done.
  - intros id -> Hid. split.
    + intros val ->. simpl. by rewrite Hid.
    + intros Hval. destruct (visit_value self value) as [val|e|]; simpl.
      * rewrite Hid. by eexists.
      * by eexists.
      * done.
  - intros id v val -> Hid ->. simpl. by rewrite Hid.
Qed.

(** ** Registration and reference *)


Lemma visit_AnnAssign_registers self id ann value (r : ir.node T) self' :
  visit_AnnAssign self (ast.Name id) ann value = Ok (r, self') ->
  exists ty,
    parse_type ann ≫= py_eval = Ok ty
    /\ vars self' = <[id := ir.mkVar id ty]> (vars self).
Proof.
  unfold visit_AnnAssign. simpl. intros H.
  apply bind_Ok_inv in H as (pt & Hpt & H).
  apply bind_Ok_inv in H as (ty & Hty & H).
  exists ty. split; [rewrite Hpt; exact Hty|].
  destruct value as [e|].
  - apply bind_Ok_inv in H as (val & _ & H). by injection H as _ <-.
  - by injection H as _ <-.
Qed.

End translator_statements.

(** ** The translator on the example trees *)

#[local] Existing Instance py_eval_builtin.

(** C1 as stated fails: [a + b] lowers on its own, yet as the operand of
    [not] or of [<] it raises instead of being lowered. *)
Lemma C1_counterexample :
  lowers_operand self_ab a_plus_b a_plus_b_ir
  /\ visit self_ab (ast.UnaryOp ast.Not a_plus_b) = Raise (TypeError "NYI: %s")
  /\ visit self_ab (ast.Compare a_plus_b [ast.Lt] [ast.Name "b"])
       = Raise (TypeError "NYI: %s").
Proof.
  split; [|split].
  - apply lowers_other; reflexivity.
  - reflexivity.
  - reflexivity.
Qed.

Lemma C1_operand_lowering_witness :
  visit self_ab (ast.BinOp a_plus_b ast.Mult (ast.Name "a"))
    = Ok (ir.BinaryOp operator.mul a_plus_b_ir (ir.OfVar (var_int "a")))
  /\ visit self_ab (ast.UnaryOp ast.Not (ast.Name "a"))
       = Ok (ir.UnaryOp operator.not_ (ir.OfVar (var_int "a")))
  /\ (exists msg, visit self_ab (ast.UnaryOp ast.Not a_plus_b) = Raise (TypeError msg))
  /\ visit self_ab (ast.Compare (ast.Name "a") [ast.Lt] [ast.Constant (ast.CInt 0)])
       = Ok (ir.BinaryOp operator.lt (ir.OfVar (var_int "a")) (lit 0)).
Proof.
  destruct (C1_operand_lowering self_ab) as (Hbin & Hun & Hunbad & Hcmp & _).
  split; [|split; [|split]].
  - apply (Hbin ast.Mult operator.mul);
      [reflexivity | apply lowers_other; reflexivity | apply lowers_name; reflexivity].
  - apply (Hun ast.Not operator.not_);
      [reflexivity | apply lowers_name; reflexivity | reflexivity].
  - apply (Hunbad ast.Not operator.not_); reflexivity.
  - apply (Hcmp ast.Lt operator.lt);
      [reflexivity | apply lowers_name; reflexivity | apply lowers_other; reflexivity
      | reflexivity | reflexivity].
Defined.



(** C3 as stated fails: the attribute path [foo.Choose] ends in the
    recognized name and lowers to a [Call]; the callee [fs[0]] is none of
    the hole callees and does not lower to a [Call] but raises. *)
Lemma C3_counterexample :
  names_hole_spec (ast.Attribute (ast.Name "foo") "Choose") = true
  /\ visit self_ab (ast.Call (ast.Attribute (ast.Name "foo") "Choose")
                      [ast.Constant (ast.CInt 1)])
       = Ok (ir.Call (ir.Field (ir.PyStr "foo") "Choose") [lit 1])
  /\ names_hole_spec (ast.Subscript (ast.Name "fs") (ast.Constant (ast.CInt 0))) = false
  /\ visit self_ab (ast.Call (ast.Subscript (ast.Name "fs") (ast.Constant (ast.CInt 0)))
                      [ast.Constant (ast.CInt 1)])
       = Raise (TypeError "xxx").
Proof. repeat split. Qed.

Lemma C3_call_lowering_witness :
  mapM (visit self_ab) [ast.Name "a"; ast.Constant (ast.CInt 1)]
    = Ok [ir.PyStr "a"; lit 1]
  /\ visit self_ab (ast.Call (ast.Attribute (ast.Name "ir") "Choose")
                      [ast.Name "a"; ast.Constant (ast.CInt 1)])
       = Ok (ir.Choose [ir.PyStr "a"; lit 1])
  /\ visit self_ab (ast.Call (ast.Name "f") [ast.Name "a"; ast.Constant (ast.CInt 1)])
       = Ok (ir.Call (ir.PyStr "f") [ir.PyStr "a"; lit 1]).
Proof.
  assert (Hargs : mapM (visit self_ab) [ast.Name "a"; ast.Constant (ast.CInt 1)]
                  = Ok [ir.PyStr "a"; lit 1]) by reflexivity.
  split; [exact Hargs|]. split.
  - destruct (C3_call_lowering self_ab (ast.Attribute (ast.Name "ir") "Choose") _ _ Hargs)
      as (_ & _ & Hhole & _).
    apply Hhole. reflexivity.
  - destruct (C3_call_lowering self_ab (ast.Name "f") _ _ Hargs)
      as (_ & _ & _ & Hcall & _).
    apply Hcall; reflexivity.
Defined.

(** C4 as stated fails.  Of [import a, b] the module pass collects the
    first name only.  And a function declared under the name [Choose]
    and called ahead of its definition is not kept as a name reference:
    the call becomes a [Choose] node. *)
Lemma C4_counterexample :
  imported_names (ast.body m_import_two) = ["a"; "b"]
  /\ translate m_import_two = Ok {| ir.imports := ["a"]; ir.fns := [] |}
  /\ def_names (ast.body m_Choose_declared) = ["f"; "Choose"]
  /\ translate m_Choose_declared
     = Ok {| ir.imports := [];
             ir.fns :=
               [ir.FnDecl "f" [var_int "x"] "int"
                  (ir.Block [ir.Return (Some (ir.Choose [ir.PyStr "x"]))]);
                ir.FnDecl "Choose" [var_int "a"] "int"
                  (ir.Block [ir.Return (Some (ir.OfVar (var_int "a")))])] |}.
Proof. repeat split; vm_compute; reflexivity. Qed.

Lemma C4_module_registry_witness :
  Forall import_has_name (ast.body m_forward_call)
  /\ Forall imports_one_name (ast.body m_forward_call)
  /\ (exists self1 : Translator string,
        register_all Translator_init (ast.body m_forward_call) = Ok self1
        /\ fns self1 !! "f" = Some None
        /\ fns self1 !! "g" = Some None
        /\ imports self1 = ["ir"])
  /\ visit_stmt (Translator_init : Translator string)
       (ast.FunctionDef "f" {| ast.args := [param "x"] |}
          [ast.Return (Some (ast.Call (ast.Name "g")
                               [ast.Name "x"; ast.Constant (ast.CInt 1)]))] int_ann)
     = Ok (ir.FnDecl "f" [var_int "x"] "int"
             (ir.Block [ir.Return (Some (ir.Call (ir.PyStr "g") [ir.PyStr "x"; lit 1]))]),
           set_vars Translator_init (<["x" := var_int "x"]> ∅)).
Proof.
  assert (Hwf : Forall import_has_name (ast.body m_forward_call)).
  { repeat constructor. }
  assert (Hone : Forall imports_one_name (ast.body m_forward_call)).
  { repeat constructor. }
  split; [exact Hwf|]. split; [exact Hone|].
  destruct (C4_module_registry Translator_init m_forward_call Hwf)
    as (self1 & Hreg & Hin & _ & Himp & _ & _ & _ & _ & Hbody & _).
  split.
  - exists self1. split; [exact Hreg|]. split; [|split].
    + apply Hin. set_solver.
    + apply Hin. set_solver.
    + exact (Himp Hone).
  - apply (Hbody Translator_init "f" {| ast.args := [param "x"] |} [] [] int_ann "g"
             [ast.Name "x"; ast.Constant (ast.CInt 1)]
             [var_int "x"] (set_vars Translator_init (<["x" := var_int "x"]> ∅))
             [] (set_vars Translator_init (<["x" := var_int "x"]> ∅))
             [ir.PyStr "x"; lit 1] []
             (set_vars Translator_init (<["x" := var_int "x"]> ∅)) "int");
      try reflexivity.
    discriminate.
Defined.

(** The module of [C4_module_registry_witness], translated: the call to
    [g] ahead of its definition and the call of [g] to itself. *)
Example translate_forward_call :
  translate m_forward_call
    = Ok {| ir.imports := ["ir"];
            ir.fns :=
              [ir.FnDecl "f" [var_int "x"] "int"
                 (ir.Block [ir.Return (Some (ir.Call (ir.PyStr "g")
                                               [ir.PyStr "x"; lit 1]))]);
               ir.FnDecl "g" [var_int "a"; var_int "b"] "int"
                 (ir.Block [ir.Return (Some (ir.Call (ir.PyStr "g")
                                               [ir.PyStr "b"; ir.PyStr "a"]))])] |}.
Proof. vm_compute. reflexivity. Qed.

Lemma C6_plain_assignment_witness :
  visit_stmt self_ab (ast.Assign [ast.Name "a"] (ast.Name "b"))
    = Ok (ir.Assign (var_int "a") (ir.OfVar (var_int "b")), self_ab)
  /\ visit_stmt self_ab (ast.Assign [ast.Name "a"; ast.Name "b"] (ast.Constant (ast.CInt 1)))
       = Raise (TypeError "multi-assign NYI: %s")
  /\ visit_stmt self_ab (ast.Assign [ast.Name "c"] (ast.Constant (ast.CInt 1)))
       = Raise KeyError.
Proof.
  split; [|split].
  - destruct (C6_plain_assignment self_ab
                [ast.Name "a"] (ast.Name "b")) as (_ & _ & Hok).
    apply (Hok "a"); reflexivity.
  - destruct (C6_plain_assignment self_ab
                [ast.Name "a"; ast.Name "b"] (ast.Constant (ast.CInt 1))) as (Hmulti & _).
    destruct Hmulti as [Hraise _]; [simpl; lia|].
    apply (Hraise (lit 1)). reflexivity.
  - destruct (C6_plain_assignment self_ab
                [ast.Name "c"] (ast.Constant (ast.CInt 1))) as (_ & Hkey & _).
    destruct (Hkey "c") as [Hraise _]; [reflexivity | reflexivity |].
    apply (Hraise (lit 1)). reflexivity.
Defined.

Lemma C10_name_lowered_as_str_witness :
  visit_stmt self_ab (ast.If (ast.Name "y") [ast.Break] [])
    = Ok (ir.If (ir.PyStr "y") (ir.Block [ir.Branch ir.BreakT]) (ir.Block []), self_ab)
  /\ visit_stmt self_ab (ast.While (ast.Name "y") [ast.Continue] [])
       = Ok (ir.While (ir.PyStr "y") [ir.Branch ir.ContinueT], self_ab)
  /\ resolve self_ab (ast.Name "y") true = Raise (NameError "variable not found: y").
Proof.
  destruct (C10_name_lowered_as_str self_ab "y")
    as (_ & Hres & _ & _ & Hif & Hwhile).
  split; [|split].
  - apply (Hif _ _ _ _ self_ab); reflexivity.
  - apply (Hwhile _ []); reflexivity.
  - apply Hres. reflexivity.
Defined.

(** ** The argument sampler *)

Section sampler_facts.
Context {R : Type} {random : concrete.Random R} {in_range : concrete.RandomRange R}.
Local Open Scope Z_scope.

Lemma getitem_in_range {A : Type} (seq : list A) (i : Z) :
  0 <= i < Z.of_nat (length seq) ->
  exists x, seq !! Z.to_nat i = Some x /\ concrete.getitem seq i = Some x.
Proof.
  intros Hi. destruct (lookup_lt_is_Some_2 seq (Z.to_nat i)) as [x Hx]; [lia|].
  exists x. split; [exact Hx|]. unfold concrete.getitem.
  by rewrite bool_decide_eq_true_2 by lia.
Qed.

(** [choice] on a non-empty list returns the element at the index drawn. *)
Lemma choice_spec {A : Type} (rnd : R) (seq : list A) :
  seq <> [] ->
  exists i rnd' x,
    concrete.randbelow rnd (Z.of_nat (length seq)) = (i, rnd')
    /\ 0 <= i < Z.of_nat (length seq)
    /\ seq !! Z.to_nat i = Some x
    /\ concrete.choice rnd seq = Ok (x, rnd').
Proof.
  intros Hne.
  assert (Hlen : 0 < Z.of_nat (length seq)) by (destruct seq; [done | simpl; lia]).
  pose proof (concrete.randbelow_range rnd _ Hlen) as Hr.
  destruct (concrete.randbelow rnd (Z.of_nat (length seq))) as [i rnd'] eqn:Hd.
  simpl in Hr. destruct (getitem_in_range seq i Hr) as (x & Hx & Hg).
  exists i, rnd', x. repeat split; try lia; try done.
  unfold concrete.choice. destruct seq; [done|]. rewrite Hd, Hg. reflexivity.
Qed.

(** [randint(a, b)] with [a <= b] returns [a] plus the draw below the
    width [b - a + 1]. *)
Lemma randint_spec (rnd : R) (a b : Z) :
  a <= b ->
  exists k rnd',
    concrete.randbelow rnd (b - a + 1) = (k, rnd')
    /\ 0 <= k < b - a + 1
    /\ concrete.randint rnd a b = Ok (a + k, rnd').
Proof.
  intros Hab.
  assert (Hw : 0 < b - a + 1) by lia.
  pose proof (concrete.randbelow_range rnd _ Hw) as Hr.
  destruct (concrete.randbelow rnd (b - a + 1)) as [k rnd'] eqn:Hd.
  exists k, rnd'. split; [reflexivity|]. split; [exact Hr|].
  unfold concrete.randint. rewrite bool_decide_eq_true_2 by exact Hw.
  rewrite Hd. reflexivity.
Qed.

(** The two draws of [sample_int] and the value they give. *)
Lemma sample_int_draws (rnd : R) :
  exists (c : Z) (rnd1 : R) (j : Z) (rnd2 : R) (z : Z),
    concrete.randbelow rnd 3 = (c, rnd1)
    /\ concrete.sample_int rnd = Ok (concrete.Int z, rnd2)
    /\ (c = 0 /\ concrete.randbelow rnd1 (2 ^ 32) = (j, rnd2)
          /\ 0 <= j < 2 ^ 32 /\ z = concrete._MinInt + j
        \/ c = 1 /\ concrete.randbelow rnd1 27 = (j, rnd2)
          /\ 0 <= j < 27 /\ z = concrete._SmallIntMin + j
        \/ c = 2 /\ concrete.randbelow rnd1 5 = (j, rnd2)
          /\ 0 <= j < 5 /\ concrete._SpecialInt !! Z.to_nat j = Some z).
Proof.
  destruct (choice_spec rnd ["All"; "Small"; "Special"]%string)
    as (c & rnd1 & cls & Hc & Hcr & Hcls & Hchoice); [done|].
  simpl in Hc, Hcr.
  assert (Hcase : c = 0 \/ c = 1 \/ c = 2) by lia.
  unfold concrete.sample_int. rewrite Hchoice. cbn [mbind outcome_bind].
  destruct Hcase as [->|[->| ->]]; simpl in Hcls; injection Hcls as <-.
  - destruct (randint_spec rnd1 concrete._MinInt concrete._MaxInt)
      as (j & rnd2 & Hj & Hjr & Hrand); [done|].
    rewrite bool_decide_eq_true_2 by reflexivity.
    rewrite Hrand. simpl.
    exists 0, rnd1, j, rnd2, (concrete._MinInt + j).
    split; [exact Hc|]. split; [reflexivity|]. left.
    split; [reflexivity|]. split; [exact Hj|]. split; [exact Hjr | reflexivity].
  - destruct (randint_spec rnd1 concrete._SmallIntMin concrete._SmallIntMax)
      as (j & rnd2 & Hj & Hjr & Hrand); [done|].
    rewrite bool_decide_eq_false_2 by discriminate.
    rewrite bool_decide_eq_true_2 by reflexivity.
    rewrite Hrand. simpl.
    exists 1, rnd1, j, rnd2, (concrete._SmallIntMin + j).
    split; [exact Hc|]. split; [reflexivity|]. right; left.
    split; [reflexivity|]. split; [exact Hj|]. split; [exact Hjr | reflexivity].
  - destruct (choice_spec rnd1 concrete._SpecialInt)
      as (j & rnd2 & z & Hj & Hjr & Hz & Hch); [done|].
    rewrite !bool_decide_eq_false_2 by discriminate.
    rewrite bool_decide_eq_true_2 by reflexivity.
    rewrite Hch. simpl.
    exists 2, rnd1, j, rnd2, z.
    split; [exact Hc|]. split; [reflexivity|]. right; right.
    split; [reflexivity|]. split; [exact Hj|]. split; [exact Hjr | exact Hz].
Qed.

Lemma SpecialInt_int32 (z : Z) :
  z ∈ concrete._SpecialInt -> - 2 ^ 31 <= z <= 2 ^ 31 - 1.
Proof.
  change concrete._SpecialInt with [-1; 1; 0; - 2 ^ 31; 2 ^ 31 - 1]. intros Hin.
  repeat (apply elem_of_cons in Hin as [->|Hin]; [lia|]).
  by apply elem_of_nil in Hin.
Qed.

Lemma sample_int_int32 (rnd : R) :
  exists v rnd', concrete.sample_int rnd = Ok (v, rnd') /\ int32_value v.
Proof.
  destruct (sample_int_draws rnd) as (c & rnd1 & j & rnd2 & z & _ & H & Hcases).
  exists (concrete.Int z), rnd2. split; [exact H|]. simpl.
  destruct Hcases as [(_ & _ & Hj & ->)|[(_ & _ & Hj & ->)|(_ & _ & Hj & Hz)]].
  - change concrete._MinInt with (- 2 ^ 31). lia.
  - change concrete._SmallIntMin with (-13). lia.
  - apply SpecialInt_int32. apply list_elem_of_lookup. by eexists.
Qed.

(** C8.  [sample_int] takes one draw below 3 for the class and one draw
    for the value.  Class 0 returns [-2^31] plus a draw below [2^32],
    class 1 returns [-13] plus a draw below 27, class 2 returns the
    element of [[-1, 1, 0, -2^31, 2^31 - 1]] at a draw below 5.  The
    value always lies in [[-2^31, 2^31 - 1]].  In each class every value
    of its set comes from exactly one draw, so draws that are uniform
    give values that are uniform on the set. *)
Theorem C8_sample_int (rnd : R) :
  exists (c : Z) (rnd1 : R) (j : Z) (rnd2 : R) (z : Z),
    concrete.randbelow rnd 3 = (c, rnd1)
    /\ concrete.sample_int rnd = Ok (concrete.Int z, rnd2)
    /\ (c = 0 /\ concrete.randbelow rnd1 (2 ^ 32) = (j, rnd2)
          /\ 0 <= j < 2 ^ 32 /\ z = - 2 ^ 31 + j
        \/ c = 1 /\ concrete.randbelow rnd1 27 = (j, rnd2)
          /\ 0 <= j < 27 /\ z = -13 + j /\ -13 <= z <= 13
        \/ c = 2 /\ concrete.randbelow rnd1 5 = (j, rnd2)
          /\ 0 <= j < 5
          /\ [-1; 1; 0; - 2 ^ 31; 2 ^ 31 - 1] !! Z.to_nat j = Some z
          /\ z ∈ [-1; 1; 0; - 2 ^ 31; 2 ^ 31 - 1])
    /\ - 2 ^ 31 <= z <= 2 ^ 31 - 1
    /\ (forall v, - 2 ^ 31 <= v <= 2 ^ 31 - 1 ->
          exists! k, 0 <= k < 2 ^ 32 /\ v = concrete._MinInt + k)
    /\ (forall v, -13 <= v <= 13 ->
          exists! k, 0 <= k < 27 /\ v = concrete._SmallIntMin + k)
    /\ (forall v, v ∈ [-1; 1; 0; - 2 ^ 31; 2 ^ 31 - 1] ->
          exists! k, 0 <= k < 5 /\ concrete._SpecialInt !! Z.to_nat k = Some v).
Proof.
  destruct (sample_int_draws rnd) as (c & rnd1 & j & rnd2 & z & Hc & Hs & Hcases).
  exists c, rnd1, j, rnd2, z. split; [exact Hc|]. split; [exact Hs|].
  assert (Hconst :
    (forall v, - 2 ^ 31 <= v <= 2 ^ 31 - 1 ->
       exists! k, 0 <= k < 2 ^ 32 /\ v = concrete._MinInt + k)
    /\ (forall v, -13 <= v <= 13 ->
          exists! k, 0 <= k < 27 /\ v = concrete._SmallIntMin + k)
    /\ (forall v, v ∈ [-1; 1; 0; - 2 ^ 31; 2 ^ 31 - 1] ->
          exists! k, 0 <= k < 5 /\ concrete._SpecialInt !! Z.to_nat k = Some v)).
  { change concrete._MinInt with (- 2 ^ 31).
    change concrete._SmallIntMin with (-13).
    split; [|split].
    - intros v Hv. exists (v + 2 ^ 31). split; [lia|]. intros k' Hk'. lia.
    - intros v Hv. exists (v + 13). split; [lia|]. intros k' Hk'. lia.
    - intros v Hv.
      assert (Hidx : forall k v', 0 <= k < 5 ->
                concrete._SpecialInt !! Z.to_nat k = Some v' ->
                k = 0 /\ v' = -1 \/ k = 1 /\ v' = 1 \/ k = 2 /\ v' = 0
                \/ k = 3 /\ v' = - 2 ^ 31 \/ k = 4 /\ v' = 2 ^ 31 - 1).
      { intros k v' Hk Hl.
        assert (Hk' : k = 0 \/ k = 1 \/ k = 2 \/ k = 3 \/ k = 4) by lia.
        destruct Hk' as [->|[->|[->|[->| ->]]]]; vm_compute in Hl;
          injection Hl as <-; auto 10. }
      repeat (apply elem_of_cons in Hv as [->|Hv]);
        [exists 0|exists 1|exists 2|exists 3|exists 4|by apply elem_of_nil in Hv];
        (split; [split; [lia | reflexivity]|]);
        intros k' [Hk' Hl']; destruct (Hidx _ _ Hk' Hl') as [H|[H|[H|[H|H]]]]; lia. }
  destruct Hcases as [(-> & Hd & Hj & ->)|[(-> & Hd & Hj & ->)|(-> & Hd & Hj & Hz)]].
  - change concrete._MinInt with (- 2 ^ 31).
    split; [left; split; [reflexivity|]; split; [exact Hd|]; split; [exact Hj|reflexivity]|].
    split; [lia | exact Hconst].
  - change concrete._SmallIntMin with (-13).
    split; [right; left; split; [reflexivity|]; split; [exact Hd|];
            split; [exact Hj|]; split; [reflexivity | lia]|].
    split; [lia | exact Hconst].
  - assert (Hin : z ∈ concrete._SpecialInt).
    { apply list_elem_of_lookup. by eexists. }
    split; [right; right; split; [reflexivity|]; split; [exact Hd|];
            split; [exact Hj|]; split; [exact Hz | exact Hin]|].
    split; [by apply SpecialInt_int32 | exact Hconst].
Qed.
End sampler_facts.

(** ** Traces and unsupported types *)

Section trace_facts.
Context {R : Type} {random : concrete.Random R} {in_range : concrete.RandomRange R}.
Local Open Scope Z_scope.

Lemma sample_tpe_Int (rnd : R) (tpe : concrete.Type_) :
  is_Int_type tpe ->
  exists v rnd', concrete.sample_tpe rnd tpe = Ok (v, rnd') /\ int32_value v.
Proof.
  intros Hint. unfold concrete.sample_tpe.
  rewrite bool_decide_eq_true_2 by exact Hint. apply sample_int_int32.
Qed.

Lemma sample_tpe_unsupported (rnd : R) (tpe : concrete.Type_) :
  ~ is_Int_type tpe ->
  concrete.sample_tpe rnd tpe = Raise (NotImplementedError "TODO: {tpe}").
Proof.
  intros Hint. unfold concrete.sample_tpe.
  by rewrite bool_decide_eq_false_2 by exact Hint.
Qed.


Lemma sample_args_unsupported (analysis : concrete.AnalysisResult) :
  Exists (fun a => ~ is_Int_type (concrete.type a)) (concrete.arguments analysis) ->
  forall rnd : R,
    concrete.sample_args rnd analysis = Raise (NotImplementedError "TODO: {tpe}").
Proof.
  unfold concrete.sample_args.
  induction (concrete.arguments analysis) as [|a l IH]; intros Hex rnd.
  - by apply Exists_nil in Hex.
  - simpl. destruct (decide (is_Int_type (concrete.type a))) as [Ha|Ha].
    + destruct (sample_tpe_Int rnd _ Ha) as (v & rnd1 & Hv & _).
      rewrite Hv. simpl. apply Exists_cons in Hex as [Hex|Hex]; [done|].
      fold (mapM_st (fun (rnd : R) arg => concrete.sample_tpe rnd (concrete.type arg)) rnd1 l).
      by rewrite IH.
    + by rewrite sample_tpe_unsupported.
Qed.


(** *** The bridge *)

Lemma meta_tpe_to_c_tpe_cases (tpe : concrete.Type_) :
  (is_Int_type tpe /\ concrete._meta_tpe_to_c_tpe tpe = Ok concrete.c_int)
  \/ (~ is_Int_type tpe
      /\ concrete._meta_tpe_to_c_tpe tpe = Raise (NotImplementedError "TODO: {tpe}")).
Proof.
  unfold concrete._meta_tpe_to_c_tpe. case_bool_decide; [by left | by right].
Qed.

Lemma mapM_meta_tpe_unsupported (types : list concrete.Type_) :
  Exists (fun t => ~ is_Int_type t) types ->
  mapM concrete._meta_tpe_to_c_tpe types = Raise (NotImplementedError "TODO: {tpe}").
Proof.
  induction types as [|t types IH]; intros Hex.
  - by apply Exists_nil in Hex.
  - simpl. destruct (meta_tpe_to_c_tpe_cases t) as [[Ht ->]|[Ht ->]]; [|reflexivity].
    simpl. apply Exists_cons in Hex as [Hex|Hex]; [done|].
    fold (mapM concrete._meta_tpe_to_c_tpe types). by rewrite IH.
Qed.

Lemma mapM_meta_tpe_Int (types : list concrete.Type_) :
  Forall is_Int_type types ->
  mapM concrete._meta_tpe_to_c_tpe types = Ok (const concrete.c_int <$> types).
Proof.
  induction 1 as [|t types Ht _ IH]; [reflexivity|].
  simpl. destruct (meta_tpe_to_c_tpe_cases t) as [[_ ->]|[Hn _]]; [|done].
  simpl. fold (mapM concrete._meta_tpe_to_c_tpe types). by rewrite IH.
Qed.
End trace_facts.

Section bridge_facts.
Context {R : Type} {random : concrete.Random R} {in_range : concrete.RandomRange R}.
Context {W Mod Target Machine Engine : Type}
        {llvm : concrete.Llvm W Mod Target Machine Engine}.

(** C9.  A type whose name is not [Int] makes the sampler raise
    [NotImplementedError] when it is asked to sample it, on its own or
    in an argument list.  It makes [_analysis_to_c_func] raise
    [NotImplementedError] wherever it stands among the return and
    argument types, and only then.  [compile_function] builds the
    prototype before it returns, so with such a type it returns no
    callable: once the module is loaded and the address found, it
    raises [NotImplementedError]; there is nothing to call. *)
Theorem C9_unsupported_type (analysis : concrete.AnalysisResult) :
  (forall (rnd : R) (tpe : concrete.Type_),
      ~ is_Int_type tpe ->
      concrete.sample_tpe rnd tpe = Raise (NotImplementedError "TODO: {tpe}"))
  /\ (forall rnd : R,
      Exists (fun a => ~ is_Int_type (concrete.type a)) (concrete.arguments analysis) ->
      concrete.sample_args rnd analysis = Raise (NotImplementedError "TODO: {tpe}"))
  /\ (forall tpe : concrete.Type_,
      ~ is_Int_type tpe ->
      concrete._meta_tpe_to_c_tpe tpe = Raise (NotImplementedError "TODO: {tpe}"))
  /\ (Exists (fun t => ~ is_Int_type t) (descriptor_types analysis) ->
      concrete._analysis_to_c_func analysis = Raise (NotImplementedError "TODO: {tpe}")
      /\ forall (filename : string) (p : concrete.Process),
          (forall r, concrete.compile_function filename analysis p <> Ok r)
          /\ (forall func_ptr p',
                concrete.load_function filename analysis p = Ok (func_ptr, p') ->
                concrete.compile_function filename analysis p
                  = Raise (NotImplementedError "TODO: {tpe}")))
  /\ (Forall is_Int_type (descriptor_types analysis) ->
      concrete._analysis_to_c_func analysis
        = Ok (concrete.mkCFuncPtr concrete.c_int
                (const concrete.c_int <$> concrete.arguments analysis))
      /\ forall (filename : string) (p : concrete.Process) func_ptr p',
          concrete.load_function filename analysis p = Ok (func_ptr, p') ->
          concrete.compile_function filename analysis p
            = Ok (concrete.mkCFuncPtr concrete.c_int
                    (const concrete.c_int <$> concrete.arguments analysis) func_ptr,
                  p')).
Proof.
  split; [|split; [|split; [|split]]].
  - intros rnd tpe. apply sample_tpe_unsupported.
  - intros rnd Hex. by apply sample_args_unsupported.
  - intros tpe Ht. by destruct (meta_tpe_to_c_tpe_cases tpe) as [[? _]|[_ ?]].
  - intros Hex.
    assert (Hproto : concrete._analysis_to_c_func analysis
                     = Raise (NotImplementedError "TODO: {tpe}")).
    { unfold concrete._analysis_to_c_func.
      change (concrete.return_type analysis
                :: map concrete.type (concrete.arguments analysis))
        with (descriptor_types analysis).
      by rewrite (mapM_meta_tpe_unsupported _ Hex). }
    split; [exact Hproto|]. intros filename p. unfold concrete.compile_function.
    split.
    + intros r H. apply bind_Ok_inv in H as ([ptr p'] & _ & H). simpl in H.
      rewrite Hproto in H. discriminate.
    + intros func_ptr p' ->. simpl. by rewrite Hproto.
  - intros Hall.
    assert (Hproto : concrete._analysis_to_c_func analysis
              = Ok (concrete.mkCFuncPtr concrete.c_int
                      (const concrete.c_int <$> concrete.arguments analysis))).
    { unfold concrete._analysis_to_c_func.
      change (concrete.return_type analysis
                :: map concrete.type (concrete.arguments analysis))
        with (descriptor_types analysis).
      rewrite (mapM_meta_tpe_Int _ Hall). simpl.
      by rewrite <- list_fmap_compose. }
    split; [exact Hproto|]. intros filename p func_ptr p' Hload.
    unfold concrete.compile_function. rewrite Hload. simpl. by rewrite Hproto.
Qed.

(** *** Traces of a compiled callable *)


End bridge_facts.

(** ** The sampler and the bridge on the examples *)

Lemma lcg_range : @concrete.RandomRange Z lcg.
Proof.
  intros rnd n Hn. unfold concrete.randbelow, lcg. simpl.
  apply Z.mod_pos_bound. exact Hn.
Qed.

#[local] Existing Instance lcg.
#[local] Existing Instance lcg_range.
#[local] Existing Instance llvm_ok.


Lemma C8_sample_int_witness :
  concrete.RandomRange Z
  /\ exists z rnd', concrete.sample_int (2024%Z : Z) = Ok (concrete.Int z, rnd')
       /\ (- 2 ^ 31 <= z <= 2 ^ 31 - 1)%Z.
Proof.
  split; [exact lcg_range|].
  destruct (C8_sample_int (2024%Z : Z)) as (c & rnd1 & j & rnd2 & z & _ & Hs & _ & Hz & _).
  exists z, rnd2. split; [exact Hs | exact Hz].
Defined.

Lemma C9_unsupported_type_witness :
  Exists (fun t => ~ is_Int_type t) (descriptor_types analysis_float)
  /\ concrete.compile_function "h.ll" analysis_float
       (concrete.mkProcess None tt) = Raise (NotImplementedError "TODO: {tpe}")
  /\ concrete.sample_args (2024%Z : Z) analysis_float
       = Raise (NotImplementedError "TODO: {tpe}")
  /\ concrete.compile_function "f.ll" analysis_ints (concrete.mkProcess None tt)
       = Ok (concrete.mkCFuncPtr concrete.c_int [concrete.c_int; concrete.c_int] 4096,
             concrete.mkProcess (Some tt) tt).
Proof.
  assert (Hex : Exists (fun t => ~ is_Int_type t) (descriptor_types analysis_float)).
  { apply Exists_cons_tl, Exists_cons_hd. discriminate. }
  split; [exact Hex|].
  destruct (C9_unsupported_type (R := Z) analysis_float) as (_ & Hargs & _ & Hbad & _).
  destruct (C9_unsupported_type (R := Z) analysis_ints) as (_ & _ & _ & _ & Hgood).
  split; [|split].
  - destruct (Hbad Hex) as (_ & Hcompile).
    destruct (Hcompile "h.ll" (concrete.mkProcess None tt)) as (_ & Hraise).
    apply (Hraise 4096%Z (concrete.mkProcess (Some tt) tt)). reflexivity.
  - apply Hargs. apply Exists_cons_hd. discriminate.
  - destruct Hgood as (_ & Hcompile).
    + repeat constructor.
    + apply (Hcompile "f.ll" (concrete.mkProcess None tt) 4096%Z). reflexivity.
Defined.

(** * Further properties of the translator *)

Section expression_facts.
Context {T : Type}.
Implicit Types (self : Translator T) (n : ast.expr) (id : string).

(** ** Induction on expressions, through their lists *)

Lemma expr_ind_nested (P : ast.expr -> Prop) :
  (forall id, P (ast.Name id)) ->
  (forall value attr, P value -> P (ast.Attribute value attr)) ->
  (forall l op r, P l -> P r -> P (ast.BinOp l op r)) ->
  (forall op e, P e -> P (ast.UnaryOp op e)) ->
  (forall l ops comparators, P l -> Forall P comparators ->
     P (ast.Compare l ops comparators)) ->
  (forall func args, P func -> Forall P args -> P (ast.Call func args)) ->
  (forall value, P (ast.Constant value)) ->
  (forall value, P value -> P (ast.Index value)) ->
  (forall value, P value -> P (ast.Starred value)) ->
  (forall value slice, P value -> P slice -> P (ast.Subscript value slice)) ->
  (forall elts, Forall P elts -> P (ast.List_ elts)) ->
  (forall elts, Forall P elts -> P (ast.Tuple elts)) ->
  (forall cls, P (ast.OtherExpr cls)) ->
  forall n, P n.
Proof.
  intros HN HA HB HU HC HCa HCo HI HS HSu HL HT HO.
  fix IH 1. intros n.
  assert (Hall : forall l : list ast.expr, Forall P l).
  { fix IHl 1. intros [|x l]; constructor; [apply IH | apply IHl]. }
  destruct n.
  - apply HN.
  - apply HA, IH.
  - apply HB; apply IH.
  - apply HU, IH.
  - apply HC; [apply IH | apply Hall].
  - apply HCa; [apply IH | apply Hall].
  - apply HCo.
  - apply HI, IH.
  - apply HS, IH.
  - apply HSu; apply IH.
  - apply HL, Hall.
  - apply HT, Hall.
  - apply HO.
Qed.

Lemma mapM_ext_Forall {A B : Type} (f g : A -> outcome B) (xs : list A) :
  Forall (fun x => f x = g x) xs -> mapM f xs = mapM g xs.
Proof.
  induction 1 as [|x xs Hx _ IH]; [reflexivity|].
  simpl. rewrite Hx. fold (mapM f xs) (mapM g xs). by rewrite IH.
Qed.

Lemma mapM_Raise_inv {A B : Type} (f : A -> outcome B) (xs : list A) (e : exn) :
  mapM f xs = Raise e -> exists x, x ∈ xs /\ f x = Raise e.
Proof.
  induction xs as [|x xs IH]; simpl; [discriminate|].
  destruct (f x) as [y|e'|] eqn:Hx; simpl.
  - fold (mapM f xs). destruct (mapM f xs) as [ys|e'|]; simpl; try discriminate.
    intros [= ->]. destruct IH as (x' & Hin & Hx'); [reflexivity|].
    exists x'. split; [by apply list_elem_of_further | exact Hx'].
  - intros [= ->]. exists x. split; [apply list_elem_of_here | exact Hx].
  - discriminate.
Qed.

Lemma bind_Raise_inv {A B : Type} (m : outcome A) (f : A -> outcome B) (e : exn) :
  m ≫= f = Raise e -> m = Raise e \/ exists a, m = Ok a /\ f a = Raise e.
Proof. destruct m as [a|e'|]; simpl; intros H; [eauto | left; congruence | discriminate]. Qed.

(** ** Annotations *)

Lemma mapM_parse_type_shape (elts : list ast.expr) :
  Forall (fun t => if annotation_shape t
                   then exists s, parse_type t = Ok s
                   else parse_type t = Raise (TypeError "NYI: %s")) elts ->
  if forallb annotation_shape elts
  then exists l, mapM parse_type elts = Ok l
  else mapM parse_type elts = Raise (TypeError "NYI: %s").
Proof.
  induction 1 as [|t elts Ht _ IH]; simpl; [by eexists|].
  fold (mapM parse_type elts).
  destruct (annotation_shape t); simpl.
  - destruct Ht as [s ->]. simpl.
    destruct (forallb annotation_shape elts).
    + destruct IH as [l ->]. simpl. by eexists.
    + by rewrite IH.
  - by rewrite Ht.
Qed.

(** X1.  [parse_type] returns a text exactly for the trees made of
    names, subscripts, index wrappers, lists and tuples all the way
    down; on every other tree it raises [TypeError], and it has no other
    outcome. *)
Theorem X1_parse_type_shape (t : ast.expr) :
  if annotation_shape t
  then exists s, parse_type t = Ok s
  else parse_type t = Raise (TypeError "NYI: %s").
Proof.
  induction t as [id|value attr IH|l op r IHl IHr|op e IH|l ops comparators IHl IHc
                 |func args IHf IHa|value|value IH|value IH|value slice IHv IHs
                 |elts IH|elts IH|cls] using expr_ind_nested;
    cbn [annotation_shape parse_type]; try reflexivity.
  - by eexists.
  - exact IH.
  - destruct (annotation_shape value); simpl.
    + destruct IHv as [b ->]. simpl. destruct (annotation_shape slice).
      * destruct IHs as [e ->]. simpl. by eexists.
      * by rewrite IHs.
    + by rewrite IHv.
  - apply mapM_parse_type_shape in IH.
    destruct (forallb annotation_shape elts).
    + destruct IH as [l ->]. simpl. by eexists.
    + by rewrite IH.
  - apply mapM_parse_type_shape in IH.
    destruct (forallb annotation_shape elts).
    + destruct IH as [l ->]. simpl. by eexists.
    + by rewrite IH.
Qed.
(** ** What lowering an expression reads and returns *)

Lemma resolve_with_ext self self' (v : ast.expr) (is_var : bool) :
  vars self = vars self' ->
  visit self v = visit self' v ->
  resolve_with (visit self) self v is_var
    = resolve_with (visit self') self' v is_var.
Proof. intros Hvars Hv. destruct v; simpl; rewrite <- ?Hvars; try reflexivity; exact Hv. Qed.

Lemma visit_vars_only self self' n :
  vars self = vars self' -> visit self n = visit self' n.
Proof.
  intros Hvars.
  induction n as [id|value attr IH|l op r IHl IHr|op e IH|l ops comparators IHl IHc
                 |func args IHf IHa|value|value IH|value IH|value slice IHv IHs
                 |elts IH|elts IH|cls] using expr_ind_nested;
    cbn [visit]; try reflexivity.
  - by rewrite IH.
  - rewrite (resolve_with_ext self self' l true Hvars IHl).
    rewrite (resolve_with_ext self self' r true Hvars IHr).
    by rewrite IHl, IHr.
  - by rewrite (resolve_with_ext self self' e true Hvars IH).
  - rewrite (resolve_with_ext self self' l true Hvars IHl).
    destruct comparators as [|c cs]; [reflexivity|].
    apply Forall_cons in IHc as [Hc _].
    by rewrite (resolve_with_ext self self' c true Hvars Hc).
  - rewrite (mapM_ext_Forall _ _ _ IHa).
    by rewrite (resolve_with_ext self self' func false Hvars IHf).
  - exact IH.
  - by rewrite IH.
  - by rewrite IHv, IHs.
Qed.

(** X2.  Lowering an expression reads the translator only through
    [vars]: two translators with the same symbol table give the same
    outcome, whatever [fns] and [imports] hold.  The call of a function
    lowers the same whether or not the function is in the registry. *)
Theorem X2_visit_reads_only_vars self self' n (b : bool) :
  vars self = vars self' ->
  visit self n = visit self' n /\ resolve self n b = resolve self' n b.
Proof.
  intros Hvars. pose proof (visit_vars_only self self' n Hvars) as Hv.
  split; [exact Hv|]. by apply resolve_with_ext.
Qed.

Lemma resolve_refs self (v : ast.expr) (b : bool) (r : ir.node T) :
  (forall r', visit self v = Ok r' -> Forall (registered self) (var_refs r')) ->
  resolve self v b = Ok r -> Forall (registered self) (var_refs r).
Proof.
  intros Hv. unfold resolve. destruct v; simpl; try discriminate; try apply Hv.
  destruct b.
  - destruct (vars self !! id) as [x|] eqn:Hx; [|discriminate].
    intros [= <-]. simpl. constructor; [by exists id | constructor].
  - intros [= <-]. constructor.
Qed.

Lemma visit_value_refs self (v : ast.expr) (r : ir.node T) :
  (forall r', visit self v = Ok r' -> Forall (registered self) (var_refs r')) ->
  visit_value self v = Ok r -> Forall (registered self) (var_refs r).
Proof.
  intros Hv. unfold visit_value. destruct (ast.is_Name v); [by apply resolve_refs | apply Hv].
Qed.

Lemma mapM_visit_refs self (args : list ast.expr) (args' : list (ir.node T)) :
  Forall (fun a => forall r', visit self a = Ok r' ->
            Forall (registered self) (var_refs r')) args ->
  mapM (visit self) args = Ok args' ->
  Forall (registered self) (concat (map var_refs args')).
Proof.
  intros Hall H. apply mapM_Forall2 in H.
  induction H as [|a a' args args' Ha _ IH]; simpl; [constructor|].
  apply Forall_cons in Hall as [Ha' Hall].
  apply Forall_app. split; [by apply Ha' | by apply IH].
Qed.

Ltac split_binds H :=
  repeat match type of H with
  | _ ≫= _ = Ok _ =>
      let a := fresh "a" in let Ha := fresh "Ha" in
      apply bind_Ok_inv in H as (a & Ha & H)
  end.

(** X3.  Every [Var] a lowered expression refers to is an entry of the
    symbol table the expression was lowered with: lowering never makes
    up a [Var]. *)
Theorem X3_var_refs_registered self n (r : ir.node T) :
  visit self n = Ok r -> Forall (registered self) (var_refs r).
Proof.
  revert r.
  induction n as [id|value attr IH|l op r0 IHl IHr|op e IH|l ops comparators IHl IHc
                 |func args IHf IHa|value|value IH|value IH|value slice IHv IHs
                 |elts IH|elts IH|cls] using expr_ind_nested;
    intros r H; cbn [visit] in H; try discriminate.
  - injection H as <-. constructor.
  - split_binds H. injection H as <-. simpl. by apply IH.
  - change (binop_tag op ≫= (fun new_op =>
              visit_value self l ≫= (fun l' =>
              visit_value self r0 ≫= (fun r' =>
              Ok (ir.BinaryOp new_op l' r')))) = Ok r) in H.
    split_binds H. injection H as <-. simpl. apply Forall_app. split.
    + eapply (visit_value_refs self l); eauto.
    + eapply (visit_value_refs self r0); eauto.
  - change (unaryop_tag op ≫= (fun new_op =>
              resolve self e true ≫= (fun e' =>
              Ok (ir.UnaryOp new_op e'))) = Ok r) in H.
    split_binds H. injection H as <-. simpl. eapply (resolve_refs self e); eauto.
  - repeat case_bool_decide; try discriminate.
    destruct ops as [|o ops]; [discriminate|].
    apply bind_Ok_inv in H as (tag & _ & H).
    change (resolve self l true ≫= (fun l' =>
              match comparators with
              | [] => Raise IndexError
              | c :: _ => resolve self c true ≫= (fun r' =>
                            Ok (ir.BinaryOp tag l' r'))
              end) = Ok r) in H.
    apply bind_Ok_inv in H as (l' & Hl & H).
    destruct comparators as [|c cs]; [discriminate|].
    apply bind_Ok_inv in H as (r' & Hr & H). injection H as <-.
    apply Forall_cons in IHc as [Hc _]. simpl. apply Forall_app. split.
    + eapply (resolve_refs self l); eauto.
    + eapply (resolve_refs self c); eauto.
  - change (mapM (visit self) args ≫= (fun args' =>
              resolve self func false ≫= (fun fn =>
              if is_Choose fn then Ok (ir.Choose args')
              else Ok (ir.Call fn args'))) = Ok r) in H.
    apply bind_Ok_inv in H as (args' & Hargs & H).
    apply bind_Ok_inv in H as (fn & Hfn & H).
    pose proof (mapM_visit_refs _ _ _ IHa Hargs) as Hrefs.
    destruct (is_Choose fn); injection H as <-; simpl; [exact Hrefs|].
    apply Forall_app. split; [eapply (resolve_refs self func); eauto | exact Hrefs].
  - destruct value; simpl in H; try discriminate; injection H as <-; constructor.
  - by apply IH.
  - split_binds H. injection H as <-. simpl. by apply IH.
  - split_binds H. injection H as <-. simpl.
    rewrite app_nil_r. apply Forall_app. split; [by apply IHv | by apply IHs].
Qed.

Lemma resolve_exn self (v : ast.expr) (b : bool) (e : exn) :
  (visit self v = Raise e -> expr_exn e) ->
  resolve self v b = Raise e -> expr_exn e.
Proof.
  intros Hv. unfold resolve. destruct v; simpl; try apply Hv;
    try (intros [= <-]; exact I).
  destruct b; [|discriminate].
  destruct (vars self !! id); [discriminate|]. intros [= <-]. exact I.
Qed.

Lemma visit_value_exn self (v : ast.expr) (e : exn) :
  (visit self v = Raise e -> expr_exn e) ->
  visit_value self v = Raise e -> expr_exn e.
Proof.
  intros Hv. unfold visit_value. destruct (ast.is_Name v); [by apply resolve_exn | apply Hv].
Qed.

(** X4.  Lowering an expression raises nothing but [TypeError],
    [NameError] and [IndexError]. *)
Theorem X4_expression_exceptions self n (e : exn) :
  visit self n = Raise e -> expr_exn e.
Proof.
  induction n as [id|value attr IH|l op r0 IHl IHr|op e0 IH|l ops comparators IHl IHc
                 |func args IHf IHa|value|value IH|value IH|value slice IHv IHs
                 |elts IH|elts IH|cls] using expr_ind_nested;
    intros H; cbn [visit] in H; try discriminate.
  - apply bind_Raise_inv in H as [H|(v & _ & H)]; [by apply IH | discriminate].
  - change (binop_tag op ≫= (fun new_op =>
              visit_value self l ≫= (fun l' =>
              visit_value self r0 ≫= (fun r' =>
              Ok (ir.BinaryOp new_op l' r')))) = Raise e) in H.
    apply bind_Raise_inv in H as [H|(tag & _ & H)].
    { destruct op; simpl in H; try discriminate; by injection H as <-. }
    apply bind_Raise_inv in H as [H|(l' & _ & H)]; [eapply (visit_value_exn self l); eauto|].
    apply bind_Raise_inv in H as [H|(r' & _ & H)]; [eapply (visit_value_exn self r0); eauto | discriminate].
  - change (unaryop_tag op ≫= (fun new_op =>
              resolve self e0 true ≫= (fun e' =>
              Ok (ir.UnaryOp new_op e'))) = Raise e) in H.
    apply bind_Raise_inv in H as [H|(tag & _ & H)].
    { destruct op; simpl in H; try discriminate; by injection H as <-. }
    apply bind_Raise_inv in H as [H|(e' & _ & H)]; [eapply (resolve_exn self e0); eauto | discriminate].
  - case_bool_decide; [by injection H as <-|].
    case_bool_decide; [by injection H as <-|].
    destruct ops as [|o ops]; [by injection H as <-|].
    apply bind_Raise_inv in H as [H|(tag & _ & H)].
    { destruct o; simpl in H; try discriminate; by injection H as <-. }
    change (resolve self l true ≫= (fun l' =>
              match comparators with
              | [] => Raise IndexError
              | c :: _ => resolve self c true ≫= (fun r' =>
                            Ok (ir.BinaryOp tag l' r'))
              end) = Raise e) in H.
    apply bind_Raise_inv in H as [H|(l' & _ & H)]; [eapply (resolve_exn self l); eauto|].
    destruct comparators as [|c cs]; [by injection H as <-|].
    apply Forall_cons in IHc as [Hc _].
    apply bind_Raise_inv in H as [H|(r' & _ & H)]; [eapply (resolve_exn self c); eauto | discriminate].
  - change (mapM (visit self) args ≫= (fun args' =>
              resolve self func false ≫= (fun fn =>
              if is_Choose fn then Ok (ir.Choose args')
              else Ok (ir.Call fn args'))) = Raise e) in H.
    apply bind_Raise_inv in H as [H|(args' & _ & H)].
    { apply mapM_Raise_inv in H as (a & Hin & Ha).
      rewrite Forall_forall in IHa. by eapply IHa. }
    apply bind_Raise_inv in H as [H|(fn & _ & H)]; [eapply (resolve_exn self func); eauto|].
    destruct (is_Choose fn); discriminate.
  - destruct value; simpl in H; try discriminate; by injection H as <-.
  - by apply IH.
  - apply bind_Raise_inv in H as [H|(v & _ & H)]; [by apply IH | discriminate].
  - apply bind_Raise_inv in H as [H|(c & _ & H)]; [by apply IHv|].
    apply bind_Raise_inv in H as [H|(i & _ & H)]; [by apply IHs | discriminate].
Qed.
(** ** The operator tables *)

(** X19.  The tables of [visit_BinOp], [visit_Compare] and
    [visit_UnaryOp]: [+], [-], [*] and [/] map to [add], [sub], [mul]
    and [floordiv]; [==], [<], [>], [<=], [>=] and [!=] map to [eq],
    [lt], [gt], [le], [ge] and [ne]; [not] maps to [not_].  A token of
    these three classes has at most one tag, the tag is in the set of
    its kind, and two tokens never share a tag.  Every other token of
    the three classes, and every comparison chain, raises [TypeError]
    before an operand is looked at.  (The connectives [and] and [or]
    are no tokens of these classes; they belong to [ast.BoolOp] nodes,
    for which the translator has no handler.) *)
Theorem X19_operator_table :
  (binop_tag ast.Add = Ok operator.add
   /\ binop_tag ast.Sub = Ok operator.sub
   /\ binop_tag ast.Mult = Ok operator.mul
   /\ binop_tag ast.Div = Ok operator.floordiv)
  /\ (cmpop_tag ast.Eq = Ok operator.eq
      /\ cmpop_tag ast.Lt = Ok operator.lt
      /\ cmpop_tag ast.Gt = Ok operator.gt
      /\ cmpop_tag ast.LtE = Ok operator.le
      /\ cmpop_tag ast.GtE = Ok operator.ge
      /\ cmpop_tag ast.NotEq = Ok operator.ne)
  /\ unaryop_tag ast.Not = Ok operator.not_
  /\ (forall op t, binop_tag op = Ok t ->
        t ∈ [operator.add; operator.sub; operator.mul; operator.floordiv])
  /\ (forall op t, cmpop_tag op = Ok t ->
        t ∈ [operator.eq; operator.lt; operator.gt; operator.le; operator.ge;
             operator.ne])
  /\ (forall op t, unaryop_tag op = Ok t -> t = operator.not_)
  /\ (forall op1 op2 t, binop_tag op1 = Ok t -> binop_tag op2 = Ok t -> op1 = op2)
  /\ (forall op1 op2 t, cmpop_tag op1 = Ok t -> cmpop_tag op2 = Ok t -> op1 = op2)
  /\ (forall op1 op2 t, unaryop_tag op1 = Ok t -> unaryop_tag op2 = Ok t -> op1 = op2)
  /\ (forall op, op ∉ [ast.Add; ast.Sub; ast.Mult; ast.Div] ->
        forall self l r,
          visit self (ast.BinOp l op r) = Raise (TypeError "NYI; %s"))
  /\ (forall op, op ∉ [ast.Eq; ast.Lt; ast.Gt; ast.LtE; ast.GtE; ast.NotEq] ->
        forall self l comparators,
          visit self (ast.Compare l [op] comparators) = Raise (TypeError "NYI: %s"))
  /\ (forall ops, (1 < length ops)%nat ->
        forall self l comparators,
          visit self (ast.Compare l ops comparators) = Raise (TypeError "NYI: %s"))
  /\ (forall op, op <> ast.Not ->
        forall self e,
          visit self (ast.UnaryOp op e) = Raise (TypeError "NYI: %s")).
Proof.
  split; [by repeat split|]. split; [by repeat split|]. split; [reflexivity|].
  split; [|split; [|split; [|split; [|split; [|split; [|split; [|split;
    [|split]]]]]]]].
  - intros op t H. destruct op; try discriminate; injection H as <-; set_solver.
  - intros op t H. destruct op; try discriminate; injection H as <-; set_solver.
  - intros op t H. destruct op; try discriminate; by injection H as <-.
  - intros op1 op2 t H1 H2.
    destruct op1; try discriminate; destruct op2; try discriminate;
      simpl in *; congruence.
  - intros op1 op2 t H1 H2.
    destruct op1; try discriminate; destruct op2; try discriminate;
      simpl in *; congruence.
  - intros op1 op2 t H1 H2.
    destruct op1; try discriminate; destruct op2; try discriminate;
      simpl in *; congruence.
  - intros op Hop self l r. rewrite visit_BinOp.
    destruct op; try reflexivity; exfalso; apply Hop; set_solver.
  - intros op Hop self l comparators. cbn [visit length].
    rewrite bool_decide_eq_false_2 by lia.
    case_bool_decide; [reflexivity|].
    destruct op; try reflexivity; exfalso; apply Hop; set_solver.
  - intros ops Hlen self l comparators. cbn [visit].
    by rewrite bool_decide_eq_true_2.
  - intros op Hop self e. rewrite visit_UnaryOp. by destruct op.
Qed.
End expression_facts.

Section statement_facts.
Context {T : Type} `{!PyEval T}.
Implicit Types (self : Translator T) (n : ast.expr) (id : string).

(** ** Parameters *)

Lemma visit_arguments_loop_spec (l : list ast.arg) :
  forall self acc params self',
    visit_arguments_loop self l acc = Ok (params, self') ->
    exists new,
      params = acc ++ new
      /\ Forall2 declares_param l new
      /\ vars self' = register_vars (vars self) new.
Proof.
  induction l as [|a l IH]; simpl; intros self acc params self' H.
  - injection H as <- <-. exists []. by rewrite app_nil_r.
  - apply bind_Ok_inv in H as (pt & Hpt & H).
    apply bind_Ok_inv in H as (ty & Hty & H).
    apply IH in H as (new & -> & Hnew & Hvars).
    exists (ir.mkVar (ast.arg_name a) ty :: new).
    split; [by rewrite <- app_assoc|]. split; [|exact Hvars].
    constructor; [|exact Hnew]. split; [reflexivity|].
    destruct (ast.annotation a) as [t|]; [|discriminate].
    exists t, pt. split; [reflexivity|]. exact Hpt.
Qed.

Lemma visit_arguments_loop_frame (l : list ast.arg) :
  forall self acc params self' id,
    visit_arguments_loop self l acc = Ok (params, self') ->
    id ∉ ast.arg_name <$> l ->
    vars self' !! id = vars self !! id.
Proof.
  induction l as [|a l IH]; simpl; intros self acc params self' id H Hid.
  - by injection H as _ <-.
  - apply bind_Ok_inv in H as (pt & _ & H).
    apply bind_Ok_inv in H as (ty & _ & H).
    apply not_elem_of_cons in Hid as [Hne Hid].
    rewrite (IH _ _ _ _ _ H Hid). simpl. by rewrite lookup_insert_ne.
Qed.

Lemma declares_param_names (l : list ast.arg) (vs : list (ir.Var T)) :
  Forall2 declares_param l vs -> ir.name <$> vs = ast.arg_name <$> l.
Proof.
  induction 1 as [|x v l vs [Hn _] _ IH]; [reflexivity|].
  cbn [fmap list_fmap]. by rewrite Hn, IH.
Qed.

(** X5.  When [visit_arguments] returns, it returns one [Var] per
    parameter, in the order of the parameters, each under the parameter's
    name; every parameter had an annotation of a shape [parse_type]
    accepts; the symbol table is the old one with these [Var]s
    registered in order, and the registry is untouched.  The types of
    the [Var]s are what the evaluation returned and are not constrained
    here. *)
Theorem X5_visit_arguments self (a : ast.arguments) (params : list (ir.Var T)) self' :
  visit_arguments self a = Ok (params, self') ->
  Forall2 declares_param (ast.args a) params
  /\ ir.name <$> params = ast.arg_name <$> ast.args a
  /\ vars self' = register_vars (vars self) params
  /\ fns self' = fns self /\ imports self' = imports self.
Proof.
  intros H. pose proof (visit_arguments_loop_same_registry _ _ _ _ _ H) as [Hf Hi].
  apply visit_arguments_loop_spec in H as (new & -> & Hnew & Hvars). simpl.
  split; [exact Hnew|]. split; [|by repeat split].
  by apply declares_param_names.
Qed.

(** ** What a statement does to the symbol table *)

Lemma mapM_st_unbound (body : list ast.stmt) (id : string) :
  Forall (fun s => forall self (r : ir.node T) self',
            visit_stmt self s = Ok (r, self') ->
            id ∉ binds s -> vars self !! id = None -> vars self' !! id = None) body ->
  forall self (r : list (ir.node T)) self',
    mapM_st visit_stmt self body = Ok (r, self') ->
    id ∉ concat (map binds body) -> vars self !! id = None -> vars self' !! id = None.
Proof.
  induction 1 as [|s body Hs _ IH]; simpl; intros self r self' H Hid Hnone.
  - by injection H as _ <-.
  - apply bind_Ok_inv in H as ([y s1] & Hy & H). simpl in H.
    apply bind_Ok_inv in H as ([ys s2] & Hys & H). simpl in H.
    injection H as _ <-. apply not_elem_of_app in Hid as [Hid1 Hid2].
    eapply IH; [exact Hys | exact Hid2|]. by eapply Hs.
Qed.

Lemma visit_stmt_unbound (s : ast.stmt) (id : string) :
  forall self (r : ir.node T) self',
    visit_stmt self s = Ok (r, self') ->
    id ∉ binds s -> vars self !! id = None -> vars self' !! id = None.
Proof.
  induction s as [name a body returns IHb|value|targets value|target ann value
                 |test body orelse IHb IHo|test body orelse IHb IHo
                 |names|value| | |cls] using stmt_ind_nested;
    intros self r self' H Hid Hnone; cbn [visit_stmt] in H.
  - apply bind_Ok_inv in H as ([params self1] & Hargs & H). simpl in H.
    apply bind_Ok_inv in H as ([body' self2] & Hbody & H). simpl in H.
    apply bind_Ok_inv in H as (rtype & _ & H). injection H as _ <-.
    cbn [binds] in Hid. apply not_elem_of_app in Hid as [Hid1 Hid2].
    eapply (mapM_st_unbound body id IHb); [exact Hbody | exact Hid2|].
    rewrite (visit_arguments_loop_frame _ _ _ _ _ _ Hargs Hid1). apply lookup_empty.
  - apply bind_Ok_inv in H as (x & _ & H). by injection H as _ <-.
  - apply bind_Ok_inv in H as (x & _ & H). by injection H as _ <-.
  - destruct target; try discriminate.
    apply visit_AnnAssign_registers in H as (ty & _ & ->).
    cbn [binds] in Hid. apply not_elem_of_cons in Hid as [Hne _].
    by rewrite lookup_insert_ne.
  - apply bind_Ok_inv in H as (c & _ & H).
    apply bind_Ok_inv in H as ([body' self1] & Hbody & H). simpl in H.
    injection H as _ <-. cbn [binds] in Hid.
    by eapply (mapM_st_unbound body id IHb).
  - apply bind_Ok_inv in H as (c & _ & H).
    apply bind_Ok_inv in H as ([body' self1] & Hbody & H). simpl in H.
    apply bind_Ok_inv in H as ([orelse' self2] & Horelse & H). simpl in H.
    injection H as _ <-. cbn [binds] in Hid.
    apply not_elem_of_app in Hid as [Hid1 Hid2].
    eapply (mapM_st_unbound orelse id IHo); [exact Horelse | exact Hid2|].
    by eapply (mapM_st_unbound body id IHb).
  - discriminate.
  - apply bind_Ok_inv in H as (x & _ & H). by injection H as _ <-.
  - by injection H as _ <-.
  - by injection H as _ <-.
  - discriminate.
Qed.

(** X6.  A function definition is lowered with a symbol table of its
    own: once it is lowered, the table holds no name but those of its
    parameters and of the annotated declarations in its body.  A name
    registered before and not declared in the function is gone, so that
    a reference to it after a nested definition raises [NameError]. *)
Theorem X6_function_starts_fresh self (name : string) (a : ast.arguments)
    (body : list ast.stmt) (returns : option ast.expr) (r : ir.node T) self' id :
  visit_stmt self (ast.FunctionDef name a body returns) = Ok (r, self') ->
  id ∉ binds (ast.FunctionDef name a body returns) ->
  vars self' !! id = None
  /\ visit_stmt self' (ast.Return (Some (ast.Name id)))
       = Raise (NameError ("variable not found: " +:+ id)).
Proof.
  intros H Hid.
  assert (Hnone : vars self' !! id = None).
  { cbn [visit_stmt] in H.
    apply bind_Ok_inv in H as ([params self1] & Hargs & H). simpl in H.
    apply bind_Ok_inv in H as ([body' self2] & Hbody & H). simpl in H.
    apply bind_Ok_inv in H as (rtype & _ & H). injection H as _ <-.
    cbn [binds] in Hid. apply not_elem_of_app in Hid as [Hid1 Hid2].
    eapply (mapM_st_unbound body id); [|exact Hbody | exact Hid2|].
    - apply Forall_forall. intros s _. apply visit_stmt_unbound.
    - rewrite (visit_arguments_loop_frame _ _ _ _ _ _ Hargs Hid1). apply lookup_empty. }
  split; [exact Hnone|].
  cbn [visit_stmt]. unfold visit_Return. cbn [ast.is_Name orb].
  rewrite resolve_Name_var, Hnone. reflexivity.
Qed.

Lemma mapM_st_no_def_frame (body : list ast.stmt) :
  Forall (fun s => has_def s = false ->
            forall self (r : ir.node T) self',
              visit_stmt self s = Ok (r, self') ->
              (forall id, id ∉ binds s -> vars self' !! id = vars self !! id)
              /\ (forall id, id ∈ binds s -> is_Some (vars self' !! id))) body ->
  existsb has_def body = false ->
  forall self (r : list (ir.node T)) self',
    mapM_st visit_stmt self body = Ok (r, self') ->
    (forall id, id ∉ concat (map binds body) -> vars self' !! id = vars self !! id)
    /\ (forall id, id ∈ concat (map binds body) -> is_Some (vars self' !! id)).
Proof.
  induction 1 as [|s body Hs _ IH]; simpl; intros Hdef self r self' H.
  - injection H as _ <-. split; [done|]. intros id Hid. by apply elem_of_nil in Hid.
  - apply orb_false_elim in Hdef as [Hdefs Hdefb].
    apply bind_Ok_inv in H as ([y s1] & Hy & H). simpl in H.
    apply bind_Ok_inv in H as ([ys s2] & Hys & H). simpl in H.
    injection H as _ <-.
    destruct (Hs Hdefs _ _ _ Hy) as [Hframe1 Hbound1].
    destruct (IH Hdefb _ _ _ Hys) as [Hframe2 Hbound2].
    split.
    + intros id Hid. apply not_elem_of_app in Hid as [Hid1 Hid2].
      by rewrite Hframe2, Hframe1.
    + intros id Hid. destruct (decide (id ∈ concat (map binds body))) as [Hin|Hout].
      * by apply Hbound2.
      * rewrite (Hframe2 _ Hout). apply elem_of_app in Hid as [Hid|Hid]; [|done].
        by apply Hbound1.
Qed.

Lemma visit_stmt_no_def_frame (s : ast.stmt) :
  has_def s = false ->
  forall self (r : ir.node T) self',
    visit_stmt self s = Ok (r, self') ->
    (forall id, id ∉ binds s -> vars self' !! id = vars self !! id)
    /\ (forall id, id ∈ binds s -> is_Some (vars self' !! id)).
Proof.
  induction s as [name a body returns IHb|value|targets value|target ann value
                 |test body orelse IHb IHo|test body orelse IHb IHo
                 |names|value| | |cls] using stmt_ind_nested;
    intros Hdef self r self' H; cbn [visit_stmt] in H; cbn [binds];
    try discriminate;
    try (assert (self' = self) as ->
           by (first [ apply bind_Ok_inv in H as (x & _ & H); by injection H as _ <-
                     | by injection H as _ <- ]);
         split; [done | intros id Hid; by apply elem_of_nil in Hid]).
  - destruct target; try discriminate.
    apply visit_AnnAssign_registers in H as (ty & _ & ->). split.
    + intros id0 Hid. apply not_elem_of_cons in Hid as [Hne _].
      by rewrite lookup_insert_ne.
    + intros id0 Hid. apply list_elem_of_singleton in Hid as ->.
      rewrite lookup_insert_eq. by eexists.
  - apply bind_Ok_inv in H as (c & _ & H).
    apply bind_Ok_inv in H as ([body' self1] & Hbody & H). simpl in H.
    injection H as _ <-. cbn [has_def] in Hdef.
    by eapply (mapM_st_no_def_frame body IHb).
  - apply bind_Ok_inv in H as (c & _ & H).
    apply bind_Ok_inv in H as ([body' self1] & Hbody & H). simpl in H.
    apply bind_Ok_inv in H as ([orelse' self2] & Horelse & H). simpl in H.
    injection H as _ <-. cbn [has_def] in Hdef.
    apply orb_false_elim in Hdef as [Hdefb Hdefo].
    rewrite <- concat_app, <- map_app.
    eapply (mapM_st_no_def_frame (body ++ orelse)).
    + apply Forall_app. by split.
    + rewrite existsb_app. by rewrite Hdefb, Hdefo.
    + instantiate (1 := body' ++ orelse').
      clear -Hbody Horelse. revert self body' Hbody.
      induction body as [|x body IH]; intros self body' Hbody; simpl in *.
      * injection Hbody as <- <-. simpl. exact Horelse.
      * apply bind_Ok_inv in Hbody as ([y s1] & Hy & Hbody). simpl in Hbody.
        apply bind_Ok_inv in Hbody as ([ys s2] & Hys & Hbody). simpl in Hbody.
        injection Hbody as <- <-. rewrite Hy. simpl.
        fold (mapM_st visit_stmt s1 (body ++ orelse)).
        rewrite (IH _ _ Hys). reflexivity.
Qed.

(** X7.  Statements that hold no function definition only add to the
    symbol table: after a run of them every name outside their annotated
    declarations has the entry it had before, and every name they declare
    is registered, also when the declaration stands inside an [if] or a
    [while].  A [Var] registered before is therefore still what a later
    reference yields. *)
Theorem X7_registrations_persist self (body : list ast.stmt)
    (r : list (ir.node T)) self' :
  existsb has_def body = false ->
  mapM_st visit_stmt self body = Ok (r, self') ->
  (forall id, id ∉ concat (map binds body) -> vars self' !! id = vars self !! id)
  /\ (forall id, id ∈ concat (map binds body) -> is_Some (vars self' !! id))
  /\ (forall id v, vars self !! id = Some v -> id ∉ concat (map binds body) ->
        resolve self' (ast.Name id) true = Ok (ir.OfVar v)).
Proof.
  intros Hdef H.
  destruct (mapM_st_no_def_frame body) with (self := self) (r := r) (self' := self')
    as [Hframe Hbound]; try done.
  { apply Forall_forall. intros s _. apply visit_stmt_no_def_frame. }
  split; [exact Hframe|]. split; [exact Hbound|].
  intros id v Hv Hid. rewrite resolve_Name_var, (Hframe _ Hid), Hv. reflexivity.
Qed.
(** ** Entries and their names *)

Lemma register_vars_keyed (vs : list (ir.Var T)) :
  forall m : gmap string (ir.Var T),
    (forall id v, m !! id = Some v -> ir.name v = id) ->
    forall id v, register_vars m vs !! id = Some v -> ir.name v = id.
Proof.
  induction vs as [|x vs IH]; simpl; intros m Hm; [exact Hm|].
  apply IH. intros id v. destruct (decide (ir.name x = id)) as [<-|Hne].
  - rewrite lookup_insert_eq. by intros [= <-].
  - rewrite lookup_insert_ne by exact Hne. apply Hm.
Qed.

Lemma mapM_st_keyed (body : list ast.stmt) :
  Forall (fun s => forall self (r : ir.node T) self',
            visit_stmt self s = Ok (r, self') -> vars_keyed self -> vars_keyed self') body ->
  forall self (r : list (ir.node T)) self',
    mapM_st visit_stmt self body = Ok (r, self') -> vars_keyed self -> vars_keyed self'.
Proof.
  induction 1 as [|s body Hs _ IH]; simpl; intros self r self' H Hk.
  - by injection H as _ <-.
  - apply bind_Ok_inv in H as ([y s1] & Hy & H). simpl in H.
    apply bind_Ok_inv in H as ([ys s2] & Hys & H). simpl in H.
    injection H as _ <-. eapply IH; [exact Hys|]. by eapply Hs.
Qed.

Lemma visit_stmt_keyed (s : ast.stmt) :
  forall self (r : ir.node T) self',
    visit_stmt self s = Ok (r, self') ->
    vars_keyed self \/ is_FunctionDef s = true -> vars_keyed self'.
Proof.
  induction s as [name a body returns IHb|value|targets value|target ann value
                 |test body orelse IHb IHo|test body orelse IHb IHo
                 |names|value| | |cls] using stmt_ind_nested;
    intros self r self' H Hk; cbn [visit_stmt] in H; try discriminate;
    try (destruct Hk as [Hk|Hk]; [|discriminate Hk]);
    try (assert (self' = self) as ->
           by (first [ apply bind_Ok_inv in H as (x & _ & H); by injection H as _ <-
                     | by injection H as _ <- ]);
         exact Hk).
  - apply bind_Ok_inv in H as ([params self1] & Hargs & H). simpl in H.
    apply bind_Ok_inv in H as ([body' self2] & Hbody & H). simpl in H.
    apply bind_Ok_inv in H as (rtype & _ & H). injection H as _ <-.
    eapply (mapM_st_keyed body); [|exact Hbody|].
    + eapply Forall_impl; [exact IHb|]. intros s Hs self0 r0 self0' H0 Hk0.
      eapply Hs; [exact H0 | by left].
    + apply visit_arguments_loop_spec in Hargs as (new & _ & _ & Hvars).
      intros id v. rewrite Hvars. apply register_vars_keyed.
      intros id0 v0. simpl. by rewrite lookup_empty.
  - destruct target; try discriminate.
    apply visit_AnnAssign_registers in H as (ty & _ & Hvars).
    intros id0 v. rewrite Hvars. destruct (decide (id = id0)) as [<-|Hne].
    + rewrite lookup_insert_eq. by intros [= <-].
    + rewrite lookup_insert_ne by exact Hne. apply Hk.
  - apply bind_Ok_inv in H as (c & _ & H).
    apply bind_Ok_inv in H as ([body' self1] & Hbody & H). simpl in H.
    injection H as _ <-. eapply (mapM_st_keyed body); [|exact Hbody | exact Hk].
    eapply Forall_impl; [exact IHb|]. intros s Hs self0 r0 self0' H0 Hk0.
    eapply Hs; [exact H0 | by left].
  - apply bind_Ok_inv in H as (c & _ & H).
    apply bind_Ok_inv in H as ([body' self1] & Hbody & H). simpl in H.
    apply bind_Ok_inv in H as ([orelse' self2] & Horelse & H). simpl in H.
    injection H as _ <-.
    eapply (mapM_st_keyed orelse); [|exact Horelse|].
    + eapply Forall_impl; [exact IHo|]. intros s Hs self0 r0 self0' H0 Hk0.
      eapply Hs; [exact H0 | by left].
    + eapply (mapM_st_keyed body); [|exact Hbody | exact Hk].
      eapply Forall_impl; [exact IHb|]. intros s Hs self0 r0 self0' H0 Hk0.
      eapply Hs; [exact H0 | by left].
Qed.

(** X8.  The symbol table stays keyed by name: if every entry sits
    under the name of its [Var] before a statement, the same holds after
    it; after a function definition it holds whatever the table was
    before.  With such a table, the [Var] a reference yields bears the
    referenced name and the [Var] an assignment writes bears the name of
    its target. *)
Theorem X8_vars_keyed_by_name self (s : ast.stmt) (r : ir.node T) self' :
  visit_stmt self s = Ok (r, self') ->
  vars_keyed self \/ is_FunctionDef s = true ->
  vars_keyed self'
  /\ (forall id v, resolve self' (ast.Name id) true = Ok (ir.OfVar v) -> ir.name v = id)
  /\ (forall id value v val self'',
        visit_stmt self' (ast.Assign [ast.Name id] value) = Ok (ir.Assign v val, self'') ->
        ir.name v = id).
Proof.
  intros H Hk. pose proof (visit_stmt_keyed s _ _ _ H Hk) as Hk'.
  split; [exact Hk'|]. split.
  - intros id v. rewrite resolve_Name_var.
    destruct (vars self' !! id) as [x|] eqn:Hx; [|discriminate].
    intros [= <-]. by apply Hk'.
  - intros id value v val self'' HA. rewrite visit_stmt_Assign in HA.
    apply bind_Ok_inv in HA as (val' & _ & HA). simpl in HA.
    destruct (vars self' !! id) as [x|] eqn:Hx; [|discriminate].
    simpl in HA. injection HA as <- _ _. by apply Hk'.
Qed.

(** ** Assignments and declarations *)

(** X9.  A plain assignment yields a node only in one case: a single
    target that is a bare name with an entry in the symbol table, and a
    value that lowers.  The node is then the [Assign] of that entry and
    the lowered value, and the translator is left as it was. *)
Theorem X9_plain_assignment_only self targets value (r : ir.node T) self' :
  visit_stmt self (ast.Assign targets value) = Ok (r, self') ->
  self' = self
  /\ exists t id v val,
       targets = [t] /\ bare_name t = Some id
       /\ vars self !! id = Some v
       /\ visit_value self value = Ok val
       /\ r = ir.Assign v val.
Proof.
  rewrite visit_stmt_Assign. intros H.
  apply bind_Ok_inv in H as (val & Hval & H).
  case_bool_decide as Hlen; [discriminate|].
  destruct targets as [|t targets]; [discriminate|].
  destruct targets as [|t' targets]; [|simpl in Hlen; lia].
  apply bind_Ok_inv in H as (key & Hkey & H).
  apply bind_Ok_inv in H as (v & Hv & H). injection H as <- <-.
  split; [reflexivity|].
  destruct key as [id| | | | | | | | | | | | | | | |]; try discriminate.
  simpl in Hv. destruct (vars self !! id) as [x|] eqn:Hx; [|discriminate].
  injection Hv as ->. apply (visit_PyStr self) in Hkey.
  exists t, id, v, val. by repeat split.
Qed.

(** X10.  A target of an annotated declaration that is not a name raises
    [AttributeError] whatever the annotation and the initializer are: the
    annotation is not looked at before, so one that [parse_type] refuses
    or whose evaluation raises does not change the exception.  With a
    name as target, the declaration registers the target before it looks
    at the initializer: [x: t = x] lowers, whether or not [x] was
    declared before, to the assignment of the new [Var] to itself, and
    without initializer it yields the [Var] alone. *)
Theorem X10_annotated_declaration self :
  (forall target ann value, ast.is_Name target = false ->
     visit_stmt self (ast.AnnAssign target ann value) = Raise AttributeError)
  /\ (forall id ann (ty : T), parse_type ann ≫= py_eval = Ok ty ->
        let v := ir.mkVar id ty in
        let self' := set_vars self (<[id := v]> (vars self)) in
        visit_stmt self (ast.AnnAssign (ast.Name id) ann (Some (ast.Name id)))
          = Ok (ir.Assign v (ir.OfVar v), self')
        /\ visit_stmt self (ast.AnnAssign (ast.Name id) ann None) = Ok (ir.OfVar v, self')).
Proof.
  split.
  - intros target ann value Hname. cbn [visit_stmt]. unfold visit_AnnAssign.
    by destruct target.
  - intros id ann ty Hty v self'.
    apply bind_Ok_inv in Hty as (pt & Hpt & Hty).
    split.
    + cbn [visit_stmt]. unfold visit_AnnAssign. simpl. rewrite Hpt. simpl. rewrite Hty. simpl.
      unfold visit_value, resolve. simpl. by rewrite lookup_insert_eq.
    + cbn [visit_stmt]. unfold visit_AnnAssign. simpl. rewrite Hpt. simpl. by rewrite Hty.
Qed.
End statement_facts.

Section module_facts.
Context {T : Type} `{!PyEval T}.
Implicit Types (self : Translator T) (n : ast.expr) (id : string).

(** ** Lowering does not read the registry *)

Lemma visit_with_registry f i self n :
  visit (with_registry f i self) n = visit self n.
Proof. by apply visit_vars_only. Qed.

Lemma visit_value_with_registry f i self n :
  visit_value (with_registry f i self) n = visit_value self n.
Proof.
  unfold visit_value, resolve.
  rewrite (resolve_with_ext (with_registry f i self) self n true eq_refl
             (visit_with_registry f i self n)).
  by rewrite visit_with_registry.
Qed.

Lemma visit_arguments_loop_with_registry f i (l : list ast.arg) :
  forall self acc,
    visit_arguments_loop (with_registry f i self) l acc
      = '(ps, st) ← visit_arguments_loop self l acc; Ok (ps, with_registry f i st).
Proof.
  induction l as [|a l IH]; intros self acc; simpl; [reflexivity|].
  destruct (parse_type_opt (ast.annotation a)) as [pt| |]; simpl; try reflexivity.
  destruct (py_eval pt) as [ty| |]; simpl; try reflexivity.
  exact (IH (set_vars self (<[ast.arg_name a := ir.mkVar (ast.arg_name a) ty]> (vars self)))
            (acc ++ [ir.mkVar (ast.arg_name a) ty])).
Qed.

Lemma mapM_st_with_registry f i (body : list ast.stmt) :
  Forall (fun s => forall self,
            visit_stmt (with_registry f i self) s
              = '(r, st) ← visit_stmt self s; Ok (r, with_registry f i st)) body ->
  forall self,
    mapM_st visit_stmt (with_registry f i self) body
      = '(rs, st) ← mapM_st visit_stmt self body; Ok (rs, with_registry f i st).
Proof.
  induction 1 as [|s body Hs _ IH]; intros self; simpl; [reflexivity|].
  rewrite Hs. destruct (visit_stmt self s) as [[y s1]| |]; simpl; try reflexivity.
  fold (mapM_st visit_stmt (with_registry f i s1) body).
  fold (mapM_st visit_stmt s1 body).
  rewrite IH. by destruct (mapM_st visit_stmt s1 body) as [[ys s2]| |].
Qed.

Lemma visit_stmt_with_registry f i (s : ast.stmt) :
  forall self,
    visit_stmt (with_registry f i self) s
      = '(r, st) ← visit_stmt self s; Ok (r, with_registry f i st).
Proof.
  induction s as [name a body returns IHb|value|targets value|target ann value
                 |test body orelse IHb IHo|test body orelse IHb IHo
                 |names|value| | |cls] using stmt_ind_nested;
    intros self; cbn [visit_stmt]; try reflexivity.
  - unfold visit_arguments.
    change (set_vars (with_registry f i self) ∅)
      with (with_registry f i (set_vars self ∅)).
    rewrite visit_arguments_loop_with_registry.
    destruct (visit_arguments_loop (set_vars self ∅) (ast.args a) [])
      as [[params self1]| |]; simpl; try reflexivity.
    fold (mapM_st visit_stmt (with_registry f i self1) body).
    fold (mapM_st visit_stmt self1 body).
    rewrite (mapM_st_with_registry f i body IHb).
    destruct (mapM_st visit_stmt self1 body) as [[body' self2]| |]; simpl; try reflexivity.
    by destruct (parse_type_opt returns).
  - unfold visit_Return. destruct value as [e|]; [|reflexivity].
    unfold resolve.
    rewrite (resolve_with_ext (with_registry f i self) self e true eq_refl
               (visit_with_registry f i self e)).
    rewrite visit_with_registry.
    by destruct (if ast.is_Name e || ast.is_Num e || ast.is_Str e
                 then resolve_with (visit self) self e true else visit self e).
  - unfold visit_Assign. rewrite visit_value_with_registry.
    destruct (visit_value self value) as [val| |]; simpl; try reflexivity.
    case_bool_decide; [reflexivity|].
    destruct targets as [|t ?]; [reflexivity|].
    rewrite visit_with_registry.
    destruct (visit self t) as [key| |]; simpl; try reflexivity.
    change (vars_getitem (with_registry f i self) key) with (vars_getitem self key).
    by destruct (vars_getitem self key).
  - unfold visit_AnnAssign.
    destruct target as [x| | | | | | | | | | | |]; simpl; try reflexivity.
    destruct (parse_type ann) as [pt| |]; simpl; try reflexivity.
    destruct (py_eval pt) as [ty| |]; simpl; try reflexivity.
    destruct value as [e|]; [|reflexivity].
    change (set_vars (with_registry f i self) (<[x := ir.mkVar x ty]> (vars self)))
      with (with_registry f i (set_vars self (<[x := ir.mkVar x ty]> (vars self)))).
    rewrite visit_value_with_registry.
    by destruct (visit_value _ e).
  - rewrite visit_with_registry.
    destruct (visit self test) as [c| |]; simpl; try reflexivity.
    fold (mapM_st visit_stmt (with_registry f i self) body).
    fold (mapM_st visit_stmt self body).
    rewrite (mapM_st_with_registry f i body IHb).
    by destruct (mapM_st visit_stmt self body) as [[body' self1]| |].
  - rewrite visit_with_registry.
    destruct (visit self test) as [c| |]; simpl; try reflexivity.
    fold (mapM_st visit_stmt (with_registry f i self) body).
    fold (mapM_st visit_stmt self body).
    rewrite (mapM_st_with_registry f i body IHb).
    destruct (mapM_st visit_stmt self body) as [[body' self1]| |]; simpl; try reflexivity.
    fold (mapM_st visit_stmt (with_registry f i self1) orelse).
    fold (mapM_st visit_stmt self1 orelse).
    rewrite (mapM_st_with_registry f i orelse IHo).
    by destruct (mapM_st visit_stmt self1 orelse) as [[orelse' self2]| |].
  - rewrite visit_with_registry. by destruct (visit self value).
Qed.

(** A function definition is lowered from an empty symbol table, so any
    translator lowers it as a new one does. *)
Lemma visit_FunctionDef_alone self (d : ast.stmt) :
  is_FunctionDef d = true ->
  visit_stmt self d
    = '(r, st) ← visit_stmt Translator_init d;
      Ok (r, with_registry (fns self) (imports self) st).
Proof.
  destruct d; try discriminate. intros _.
  rewrite <- (visit_stmt_with_registry (fns self) (imports self) _ Translator_init).
  reflexivity.
Qed.

Lemma mapM_st_defs_alone (ds : list ast.stmt) :
  Forall (fun d => is_FunctionDef d = true) ds ->
  forall self,
    ('(rs, st) ← mapM_st visit_stmt self ds; Ok (ir.mkProgram (imports st) rs))
    = (rs ← mapM lower_alone ds; Ok (ir.mkProgram (imports self) rs)).
Proof.
  induction 1 as [|d ds Hd _ IH]; intros self; simpl; [reflexivity|].
  rewrite (visit_FunctionDef_alone self d Hd).
  change (lower_alone d) with (visit_stmt Translator_init d ≫= (fun '(r, _) => Ok r)).
  destruct (visit_stmt Translator_init d) as [[r st]| |]; simpl; try reflexivity.
  fold (mapM_st visit_stmt (with_registry (fns self) (imports self) st) ds).
  fold (mapM lower_alone ds).
  specialize (IH (with_registry (fns self) (imports self) st)). simpl in IH.
  destruct (mapM_st visit_stmt (with_registry (fns self) (imports self) st) ds)
    as [[rs st']| |]; simpl in *;
    destruct (mapM lower_alone ds) as [rs'| |]; simpl in *; congruence.
Qed.

Lemma filter_FunctionDef_all (body : list ast.stmt) :
  Forall (fun d => is_FunctionDef d = true) (filter is_FunctionDef body).
Proof.
  apply Forall_forall. intros d Hd. apply list_elem_of_filter in Hd as [Hd _].
  by destruct (is_FunctionDef d).
Qed.

(** X11.  Translating a module is collecting the imports and lowering
    every function definition on its own: the program holds, in the
    order of the definitions, what a new translator makes of each
    definition alone, and it fails exactly as the first definition that
    fails alone.  No function is lowered differently for what precedes
    it in the module. *)
Theorem X11_functions_lowered_alone (m : ast.Module_) :
  translate m =
    (self1 ← register_all (Translator_init : Translator T) (ast.body m);
     rs ← mapM lower_alone (filter is_FunctionDef (ast.body m));
     Ok (ir.mkProgram (imports self1) rs)).
Proof.
  unfold translate, visit_Module.
  destruct (register_all (Translator_init : Translator T) (ast.body m))
    as [self1| |]; simpl;
    try reflexivity.
  rewrite <- (mapM_st_defs_alone _ (filter_FunctionDef_all (ast.body m)) self1).
  by destruct (mapM_st visit_stmt self1 (filter is_FunctionDef (ast.body m)))
    as [[rs st]| |].
Qed.

(** ** The shape of a program *)

Lemma mapM_st_Forall2 {S A B : Type} (f : S -> A -> outcome (B * S)) (xs : list A) :
  forall s ys s', mapM_st f s xs = Ok (ys, s') ->
    Forall2 (fun x y => exists s1 s2, f s1 x = Ok (y, s2)) xs ys.
Proof.
  induction xs as [|x xs IH]; simpl; intros s ys s' H.
  - injection H as <- _. constructor.
  - apply bind_Ok_inv in H as ([y s1] & Hy & H). simpl in H.
    apply bind_Ok_inv in H as ([ys' s2] & Hys & H). simpl in H.
    injection H as <- _. constructor; [by exists s, s1 | by eapply IH].
Qed.

Lemma defs_FnDecl_names (ds : list ast.stmt) (rs : list (ir.node T)) :
  Forall2 (fun d r => exists s1 s2, visit_stmt s1 d = Ok (r, s2)) ds rs ->
  Forall (fun d => is_FunctionDef d = true) ds ->
  FnDecl_name <$> rs = Some <$> def_names ds.
Proof.
  induction 1 as [|d r ds rs (s1 & s2 & Hd) _ IH]; intros Hall; [reflexivity|].
  apply Forall_cons in Hall as [Hdef Hall].
  destruct d; try discriminate. cbn [visit_stmt] in Hd.
  apply bind_Ok_inv in Hd as ([params self1] & _ & Hd). simpl in Hd.
  apply bind_Ok_inv in Hd as ([body' self2] & _ & Hd). simpl in Hd.
  apply bind_Ok_inv in Hd as (rtype & _ & Hd). injection Hd as <- _.
  unfold def_names in *. simpl. f_equal. by apply IH.
Qed.

Lemma def_names_filter (body : list ast.stmt) :
  @def_names (filter is_FunctionDef body) = @def_names body.
Proof.
  unfold def_names. induction body as [|s body IH]; [reflexivity|].
  rewrite filter_cons. destruct s; simpl; try exact IH. f_equal. exact IH.
Qed.

(** X12.  The program [visit_Module] returns holds one function
    declaration per function definition of the module body, in the order
    of the definitions and under their names; nothing else of the body
    appears in it. *)
Theorem X12_program_functions self (m : ast.Module_) (p : ir.Program T) self' :
  visit_Module self m = Ok (p, self') ->
  FnDecl_name <$> ir.fns p = Some <$> def_names (ast.body m)
  /\ length (ir.fns p) = length (def_names (ast.body m)).
Proof.
  intros H. unfold visit_Module in H.
  apply bind_Ok_inv in H as (self1 & _ & H).
  apply bind_Ok_inv in H as ([rs st] & Hdefs & H). simpl in H. injection H as <- _.
  simpl. apply mapM_st_Forall2 in Hdefs.
  pose proof (defs_FnDecl_names _ _ Hdefs (filter_FunctionDef_all _)) as Hnames.
  rewrite def_names_filter in Hnames. split; [exact Hnames|].
  apply (f_equal length) in Hnames. by rewrite !length_fmap in Hnames.
Qed.

Lemma register_all_filter (body : list ast.stmt) :
  forall self,
    register_all self (filter is_def_or_import body) = register_all self body.
Proof.
  induction body as [|s body IH]; intros self; [reflexivity|].
  rewrite filter_cons.
  destruct s as [? ? ? ?|?|? ?|? ? ?|? ? ?|? ? ?|names|?| | |?]; simpl; try apply IH.
  destruct names; simpl; [reflexivity | apply IH].
Qed.

Lemma filter_FunctionDef_filter (body : list ast.stmt) :
  filter is_FunctionDef (filter is_def_or_import body) = filter is_FunctionDef body.
Proof.
  induction body as [|s body IH]; [reflexivity|].
  rewrite !filter_cons. destruct s; simpl; rewrite ?filter_cons; simpl; by rewrite ?IH.
Qed.

(** X13.  [visit_Module] looks at nothing in a module body but its
    function definitions and [import] statements: dropping every other
    top-level statement changes neither the outcome nor the translator
    it leaves.  Such a statement is never lowered, so it cannot make the
    translation fail either. *)
Theorem X13_other_statements_ignored self (m : ast.Module_) :
  visit_Module self {| ast.body := filter is_def_or_import (ast.body m) |}
    = visit_Module self m.
Proof.
  unfold visit_Module. simpl.
  by rewrite register_all_filter, filter_FunctionDef_filter.
Qed.
(** X18.  A function definition that lowers yields the declaration
    under its name, with one [Var] per parameter, in order and under the
    parameter's name (every parameter being annotated), a block of as
    many nodes as the body has statements, and as return type the text
    of the return annotation, which is parsed and not evaluated.  A
    definition without return annotation never lowers.  The types of
    the parameters' [Var]s are not constrained here. *)
Theorem X18_function_declaration self (name : string) (a : ast.arguments)
    (body : list ast.stmt) (returns : option ast.expr) (r : ir.node T) self' :
  visit_stmt self (ast.FunctionDef name a body returns) = Ok (r, self') ->
  exists params body' rtype t,
    r = ir.FnDecl name params rtype (ir.Block body')
    /\ Forall2 declares_param (ast.args a) params
    /\ length body' = length body
    /\ returns = Some t /\ parse_type t = Ok rtype.
Proof.
  intros H. cbn [visit_stmt] in H.
  apply bind_Ok_inv in H as ([params self1] & Hargs & H). simpl in H.
  apply bind_Ok_inv in H as ([body' self2] & Hbody & H). simpl in H.
  apply bind_Ok_inv in H as (rtype & Hret & H). injection H as <- _.
  destruct returns as [t|]; [|discriminate].
  exists params, body', rtype, t. split; [reflexivity|].
  apply visit_arguments_loop_spec in Hargs as (new & -> & Hnew & _).
  split; [exact Hnew|]. split; [by eapply mapM_st_length | by split].
Qed.
End module_facts.

(** * Further properties of the concrete execution *)

Section trace_composition.
Context {R : Type} {random : concrete.Random R}.
Local Open Scope Z_scope.

Lemma gen_traces_loop_acc (cfunc : list concrete.value -> concrete.value)
    (analysis : concrete.AnalysisResult) (n : nat) :
  forall (rnd : R) (acc : list (concrete.value * list concrete.value)),
    concrete.gen_traces_loop cfunc analysis n rnd acc
      = '(t, rnd') ← concrete.gen_traces_loop cfunc analysis n rnd [];
        Ok (acc ++ t, rnd').
Proof.
  induction n as [|n IH]; intros rnd acc; simpl.
  - by rewrite app_nil_r.
  - destruct (concrete.sample_args rnd analysis) as [[args rnd1]| |]; simpl;
      try reflexivity.
    rewrite (IH rnd1 (acc ++ [(cfunc args, args)])).
    rewrite (IH rnd1 [(cfunc args, args)]).
    destruct (concrete.gen_traces_loop cfunc analysis n rnd1 []) as [[t rnd2]| |];
      simpl; try reflexivity.
    by rewrite <- app_assoc.
Qed.

Lemma gen_traces_loop_add (cfunc : list concrete.value -> concrete.value)
    (analysis : concrete.AnalysisResult) (n m : nat) :
  forall (rnd : R) (acc : list (concrete.value * list concrete.value)),
    concrete.gen_traces_loop cfunc analysis (n + m) rnd acc
      = '(t, rnd') ← concrete.gen_traces_loop cfunc analysis n rnd acc;
        concrete.gen_traces_loop cfunc analysis m rnd' t.
Proof.
  induction n as [|n IH]; intros rnd acc; simpl; [reflexivity|].
  destruct (concrete.sample_args rnd analysis) as [[args rnd1]| |]; simpl;
    try reflexivity.
  apply IH.
Qed.

(** X14.  Traces compose: asking for [a + b] records is asking for [a]
    records and then, with the generator as the first run left it, for
    [b] more; the result is the two sequences one after the other, and
    the run fails where the first of the two would. *)
Theorem X14_gen_traces_additive (cfunc : list concrete.value -> concrete.value)
    (analysis : concrete.AnalysisResult) (rnd : R) (a b : Z) :
  0 <= a -> 0 <= b ->
  concrete.gen_traces cfunc analysis rnd (a + b)
    = '(t1, rnd1) ← concrete.gen_traces cfunc analysis rnd a;
      '(t2, rnd2) ← concrete.gen_traces cfunc analysis rnd1 b;
      Ok (t1 ++ t2, rnd2).
Proof.
  intros Ha Hb. unfold concrete.gen_traces.
  rewrite !bool_decide_eq_true_2 by lia.
  rewrite Z2Nat.inj_add by lia. rewrite gen_traces_loop_add.
  destruct (concrete.gen_traces_loop cfunc analysis (Z.to_nat a) rnd [])
    as [[t1 rnd1]| |]; simpl; try reflexivity.
  apply gen_traces_loop_acc.
Qed.

(** X15.  For a function without arguments no draw is made: [gen_traces]
    returns [count] copies of the record of the call on the empty list
    and hands the generator back as it got it, whatever the return type
    of the descriptor is. *)
Theorem X15_gen_traces_no_arguments (cfunc : list concrete.value -> concrete.value)
    (analysis : concrete.AnalysisResult) (rnd : R) (count : Z) :
  concrete.arguments analysis = [] ->
  0 <= count ->
  concrete.gen_traces cfunc analysis rnd count
    = Ok (replicate (Z.to_nat count) (cfunc [], []), rnd).
Proof.
  intros Hargs Hcount. unfold concrete.gen_traces.
  rewrite bool_decide_eq_true_2 by lia.
  rewrite gen_traces_loop_acc. simpl.
  induction (Z.to_nat count) as [|n IH]; [reflexivity|].
  simpl. unfold concrete.sample_args at 1. rewrite Hargs. simpl.
  rewrite gen_traces_loop_acc.
  destruct (concrete.gen_traces_loop cfunc analysis n rnd []) as [[t rnd']| |];
    simpl in *; try discriminate.
  by injection IH as -> ->.
Qed.
End trace_composition.

Section engine_facts.
Context {W Mod Target Machine Engine : Type}
        {llvm : concrete.Llvm W Mod Target Machine Engine}.

Lemma load_function_engine (filename : string) (analysis : concrete.AnalysisResult)
    (p : concrete.Process) (func_ptr : Z) (p' : concrete.Process) :
  concrete.load_function filename analysis p = Ok (func_ptr, p') ->
  exists e w w',
    concrete._engine p' = Some e
    /\ (forall e0, concrete._engine p = Some e0 -> e0 = e)
    /\ concrete.get_function_address e (concrete.name analysis) w = Ok (func_ptr, w')
    /\ concrete.world p' = w'.
Proof.
  unfold concrete.load_function. intros H.
  apply bind_Ok_inv in H as ([llvm_ir w1] & _ & H). simpl in H.
  apply bind_Ok_inv in H as ([mod_ w2] & _ & H). simpl in H.
  apply bind_Ok_inv in H as ([u3 w3] & _ & H). simpl in H.
  apply bind_Ok_inv in H as ([e w4] & He & H). simpl in H.
  apply bind_Ok_inv in H as ([u5 w5] & _ & H). simpl in H.
  apply bind_Ok_inv in H as ([u6 w6] & _ & H). simpl in H.
  apply bind_Ok_inv in H as ([u7 w7] & _ & H). simpl in H.
  apply bind_Ok_inv in H as ([ptr w8] & Hptr & H). simpl in H.
  injection H as <- <-. exists e, w7, w8. simpl.
  split; [reflexivity|]. split; [|by split].
  intros e0 He0. rewrite He0 in He. by injection He as ->.
Qed.


(** X17.  Whenever [compile_function] returns a callable, every type of
    the descriptor is the integer type, the callable's prototype is
    [c_int] for the result and one [c_int] per declared argument, and
    its address is the one the engine gave for the descriptor's function
    name. *)
Theorem X17_compiled_callable (filename : string)
    (analysis : concrete.AnalysisResult) (p : concrete.Process)
    (cfunc : concrete.CFuncPtr) (p' : concrete.Process) :
  concrete.compile_function filename analysis p = Ok (cfunc, p') ->
  Forall is_Int_type (descriptor_types analysis)
  /\ concrete.restype cfunc = concrete.c_int
  /\ concrete.argtypes cfunc = const concrete.c_int <$> concrete.arguments analysis
  /\ length (concrete.argtypes cfunc) = length (concrete.arguments analysis)
  /\ exists e w w',
       concrete._engine p' = Some e
       /\ concrete.get_function_address e (concrete.name analysis) w
            = Ok (concrete.address cfunc, w').
Proof.
  unfold concrete.compile_function. intros H.
  apply bind_Ok_inv in H as ([ptr p1] & Hload & H). simpl in H.
  apply bind_Ok_inv in H as (proto & Hproto & H). injection H as <- <-.
  assert (Hall : Forall is_Int_type (descriptor_types analysis)).
  { apply Forall_forall. intros t Ht.
    destruct (decide (is_Int_type t)) as [Hint|Hint]; [exact Hint|].
    assert (Hex : Exists (fun t => ~ is_Int_type t) (descriptor_types analysis)).
    { apply Exists_exists. by exists t. }
    unfold concrete._analysis_to_c_func in Hproto.
    change (concrete.return_type analysis
              :: map concrete.type (concrete.arguments analysis))
      with (descriptor_types analysis) in Hproto.
    by rewrite (mapM_meta_tpe_unsupported _ Hex) in Hproto. }
  split; [exact Hall|].
  unfold concrete._analysis_to_c_func in Hproto.
  change (concrete.return_type analysis
            :: map concrete.type (concrete.arguments analysis))
    with (descriptor_types analysis) in Hproto.
  rewrite (mapM_meta_tpe_Int _ Hall) in Hproto. simpl in Hproto.
  injection Hproto as <-. simpl. rewrite <- list_fmap_compose.
  split; [reflexivity|]. split; [reflexivity|]. split; [by rewrite length_fmap|].
  apply load_function_engine in Hload as (e & w & w' & He & _ & Hptr & _).
  by exists e, w, w'.
Qed.
End engine_facts.

(** * The further properties on the examples *)

Lemma X2_visit_reads_only_vars_witness :
  vars (with_registry (<["g" := None]> ∅) ["ir"] self_ab) = vars self_ab
  /\ visit (with_registry (<["g" := None]> ∅) ["ir"] self_ab)
       (ast.Call (ast.Name "g") [a_plus_b])
     = visit self_ab (ast.Call (ast.Name "g") [a_plus_b]).
Proof.
  split; [reflexivity|].
  apply (X2_visit_reads_only_vars
           (with_registry (<["g" := None]> ∅) ["ir"] self_ab) self_ab _ false).
  reflexivity.
Defined.

Lemma X3_var_refs_registered_witness :
  visit self_ab a_plus_b = Ok a_plus_b_ir
  /\ Forall (registered self_ab) [var_int "a"; var_int "b"].
Proof.
  split; [reflexivity|].
  apply (X3_var_refs_registered self_ab a_plus_b a_plus_b_ir). reflexivity.
Defined.

Lemma X4_expression_exceptions_witness :
  visit self_ab (ast.BinOp (ast.Name "a") ast.Add (ast.Name "z"))
    = Raise (NameError "variable not found: z")
  /\ @expr_exn (NameError "variable not found: z").
Proof.
  split; [reflexivity|].
  apply (X4_expression_exceptions self_ab
           (ast.BinOp (ast.Name "a") ast.Add (ast.Name "z"))).
  reflexivity.
Defined.

Lemma X5_visit_arguments_witness :
  visit_arguments Translator_init {| ast.args := [param "a"; param "b"] |}
    = Ok ([var_int "a"; var_int "b"], self_ab)
  /\ ir.name <$> [var_int "a"; var_int "b"] = ["a"; "b"]
  /\ vars self_ab = register_vars ∅ [var_int "a"; var_int "b"].
Proof.
  assert (H : visit_arguments Translator_init {| ast.args := [param "a"; param "b"] |}
              = Ok ([var_int "a"; var_int "b"], self_ab)) by reflexivity.
  split; [exact H|].
  destruct (X5_visit_arguments _ _ _ _ H) as (_ & Hnames & Hvars & _).
  split; [exact Hnames | exact Hvars].
Defined.

Lemma X6_function_starts_fresh_witness :
  vars self_ab !! "a" = Some (var_int "a")
  /\ visit_stmt self_ab g_nested
       = Ok (ir.FnDecl "g" [var_int "y"] "int"
               (ir.Block [ir.Return (Some (ir.OfVar (var_int "y")))]),
             set_vars Translator_init (<["y" := var_int "y"]> ∅))
  /\ visit_stmt (set_vars Translator_init (<["y" := var_int "y"]> ∅))
       (ast.Return (Some (ast.Name "a")))
     = Raise (NameError "variable not found: a").
Proof.
  split; [reflexivity|].
  assert (H : visit_stmt self_ab g_nested
              = Ok (ir.FnDecl "g" [var_int "y"] "int"
                      (ir.Block [ir.Return (Some (ir.OfVar (var_int "y")))]),
                    set_vars Translator_init (<["y" := var_int "y"]> ∅)))
    by reflexivity.
  split; [exact H|].
  apply (X6_function_starts_fresh _ _ _ _ _ _ _ "a" H).
  intros Hin. apply list_elem_of_singleton in Hin. discriminate Hin.
Defined.

Lemma X7_registrations_persist_witness :
  exists r self',
    mapM_st visit_stmt self_ab declarations = Ok (r, self')
    /\ is_Some (vars self' !! "d")
    /\ resolve self' (ast.Name "a") true = Ok (ir.OfVar (var_int "a")).
Proof.
  destruct (mapM_st visit_stmt self_ab declarations) as [[r self']| |] eqn:H;
    [|vm_compute in H; discriminate H..].
  exists r, self'. split; [reflexivity|].
  destruct (X7_registrations_persist self_ab declarations r self' eq_refl H)
    as (_ & Hbound & Hkeep).
  split.
  - apply Hbound. vm_compute. right. left.
  - apply (Hkeep "a" (var_int "a")); [reflexivity|].
    vm_compute. intros Hin.
    repeat (apply elem_of_cons in Hin as [Hin|Hin]; [discriminate Hin|]).
    by apply elem_of_nil in Hin.
Defined.

Lemma X8_vars_keyed_by_name_witness :
  visit_stmt self_ab g_nested
    = Ok (ir.FnDecl "g" [var_int "y"] "int"
            (ir.Block [ir.Return (Some (ir.OfVar (var_int "y")))]),
          set_vars Translator_init (<["y" := var_int "y"]> ∅))
  /\ vars_keyed (set_vars Translator_init (<["y" := var_int "y"]> ∅)).
Proof.
  assert (H : visit_stmt self_ab g_nested
              = Ok (ir.FnDecl "g" [var_int "y"] "int"
                      (ir.Block [ir.Return (Some (ir.OfVar (var_int "y")))]),
                    set_vars Translator_init (<["y" := var_int "y"]> ∅)))
    by reflexivity.
  split; [exact H|].
  destruct (X8_vars_keyed_by_name _ _ _ _ H (or_intror eq_refl)) as (Hk & _).
  exact Hk.
Defined.

Lemma X9_plain_assignment_only_witness :
  visit_stmt self_ab (ast.Assign [ast.Name "a"] (ast.Name "b"))
    = Ok (ir.Assign (var_int "a") (ir.OfVar (var_int "b")), self_ab)
  /\ exists t id v val,
       [ast.Name "a"] = [t] /\ bare_name t = Some id
       /\ vars self_ab !! id = Some v
       /\ visit_value self_ab (ast.Name "b") = Ok val
       /\ ir.Assign (var_int "a") (ir.OfVar (var_int "b")) = ir.Assign v val.
Proof.
  assert (H : visit_stmt self_ab (ast.Assign [ast.Name "a"] (ast.Name "b"))
              = Ok (ir.Assign (var_int "a") (ir.OfVar (var_int "b")), self_ab))
    by reflexivity.
  split; [exact H|].
  destruct (X9_plain_assignment_only _ _ _ _ _ H) as (_ & Hex). exact Hex.
Defined.

Lemma X10_annotated_declaration_witness :
  parse_type (ast.Constant (ast.CInt 1)) = Raise (TypeError "NYI: %s")
  /\ visit_stmt Translator_init
       (ast.AnnAssign (ast.Attribute (ast.Name "o") "x") (ast.Constant (ast.CInt 1)) None)
     = Raise AttributeError
  /\ parse_type (ast.Name "int") ≫= py_eval = Ok "int"
  /\ visit_stmt Translator_init
       (ast.AnnAssign (ast.Name "x") (ast.Name "int") (Some (ast.Name "x")))
     = Ok (ir.Assign (var_int "x") (ir.OfVar (var_int "x")),
           set_vars Translator_init (<["x" := var_int "x"]> ∅)).
Proof.
  assert (H : parse_type (ast.Name "int") ≫= py_eval = Ok "int") by reflexivity.
  destruct (X10_annotated_declaration (Translator_init : Translator string))
    as (Htarget & Hname).
  split; [reflexivity|].
  split; [apply Htarget; reflexivity|].
  split; [exact H|].
  destruct (Hname "x" (ast.Name "int") "int" H) as (Hself & _).
  exact Hself.
Defined.

Lemma X12_program_functions_witness :
  exists p self',
    visit_Module Translator_init m_forward_call = Ok (p, self')
    /\ FnDecl_name <$> ir.fns p = [Some "f"; Some "g"].
Proof.
  destruct (visit_Module Translator_init m_forward_call) as [[p self']| |] eqn:H;
    [|vm_compute in H; discriminate H..].
  exists p, self'. split; [reflexivity|].
  destruct (X12_program_functions _ _ _ _ H) as (Hnames & _). exact Hnames.
Defined.

Lemma X14_gen_traces_additive_witness :
  concrete.gen_traces sum_args analysis_ints (2024%Z : Z) (2 + 3)
    = '(t1, rnd1) ← concrete.gen_traces sum_args analysis_ints (2024%Z : Z) 2;
      '(t2, rnd2) ← concrete.gen_traces sum_args analysis_ints rnd1 3;
      Ok (t1 ++ t2, rnd2).
Proof. apply X14_gen_traces_additive; lia. Defined.

Lemma X15_gen_traces_no_arguments_witness :
  concrete.gen_traces sum_args analysis_no_arguments (2024%Z : Z) 3
    = Ok (replicate 3 (concrete.Int 0, []), 2024%Z).
Proof.
  apply (X15_gen_traces_no_arguments sum_args analysis_no_arguments (2024%Z : Z) 3);
    [reflexivity | lia].
Defined.


Lemma X17_compiled_callable_witness :
  concrete.compile_function "f.ll" analysis_ints (concrete.mkProcess None tt)
    = Ok (concrete.mkCFuncPtr concrete.c_int [concrete.c_int; concrete.c_int] 4096,
          concrete.mkProcess (Some tt) tt)
  /\ Forall is_Int_type (descriptor_types analysis_ints).
Proof.
  assert (H : concrete.compile_function "f.ll" analysis_ints (concrete.mkProcess None tt)
              = Ok (concrete.mkCFuncPtr concrete.c_int
                      [concrete.c_int; concrete.c_int] 4096,
                    concrete.mkProcess (Some tt) tt)) by reflexivity.
  split; [exact H|].
  destruct (X17_compiled_callable _ _ _ _ _ H) as (Hall & _). exact Hall.
Defined.

Lemma X18_function_declaration_witness :
  visit_stmt self_ab g_nested
    = Ok (ir.FnDecl "g" [var_int "y"] "int"
            (ir.Block [ir.Return (Some (ir.OfVar (var_int "y")))]),
          set_vars Translator_init (<["y" := var_int "y"]> ∅))
  /\ exists params body' rtype t,
       ir.FnDecl "g" [var_int "y"] "int"
         (ir.Block [ir.Return (Some (ir.OfVar (var_int "y")))])
         = ir.FnDecl "g" params rtype (ir.Block body')
       /\ Forall2 declares_param [param "y"] params
       /\ length body' = 1%nat
       /\ int_ann = Some t /\ parse_type t = Ok rtype.
Proof.
  assert (H : visit_stmt self_ab g_nested
              = Ok (ir.FnDecl "g" [var_int "y"] "int"
                      (ir.Block [ir.Return (Some (ir.OfVar (var_int "y")))]),
                    set_vars Translator_init (<["y" := var_int "y"]> ∅)))
    by reflexivity.
  split; [exact H|].
  exact (X18_function_declaration _ _ _ _ _ _ _ H).
Defined.

Lemma X19_operator_table_witness :
  visit self_ab (ast.BinOp (ast.Name "a") ast.Mod (ast.Name "b"))
    = Raise (TypeError "NYI; %s")
  /\ visit self_ab (ast.Compare (ast.Name "a") [ast.Is] [ast.Name "b"])
       = Raise (TypeError "NYI: %s")
  /\ visit self_ab (ast.UnaryOp ast.USub (ast.Name "a")) = Raise (TypeError "NYI: %s").
Proof.
  destruct (@X19_operator_table string)
    as (_ & _ & _ & _ & _ & _ & _ & _ & _ & Hbin & Hcmp & _ & Hun).
  split; [|split].
  - apply Hbin. intros Hin.
    repeat (apply elem_of_cons in Hin as [Hin|Hin]; [discriminate Hin|]).
    by apply elem_of_nil in Hin.
  - apply Hcmp. intros Hin.
    repeat (apply elem_of_cons in Hin as [Hin|Hin]; [discriminate Hin|]).
    by apply elem_of_nil in Hin.
  - apply Hun. discriminate.
Defined.
